(** * git-squash: a shallow embedding of [git-squash.py]

    The script drives the [git] command line through
    [subprocess.check_output].  The embedding keeps that shape: every call
    of [GitEnv.cmd] goes through one function [run] that stands for the
    external process, the methods of [GitEnv], [SquashOperation] and
    [Logger] are state-passing functions that may raise, and the [__main__]
    block is a function from the parsed arguments to the outcome of the
    process.  The calls made to the external tool are recorded in a log, so
    that statements about which commands ran, and in which order, can be
    made. *)

From Stdlib Require Import String Ascii Strings.Byte List ZArith NArith Bool Lia.
From Stdlib Require HexadecimalString HexadecimalNat.
Import ListNotations.

Local Open Scope list_scope.
Local Open Scope Z_scope.

(** ** Text and bytes

    A Python [bytes] value is a list of bytes.  A Python [str] is kept as
    its UTF-8 encoding in a [string]; the literals and f-strings of the
    script are ASCII, and [bytes.decode('utf-8')] is then a validity check
    followed by a change of type. *)

Definition bytes := list byte.
Definition str := string.

Notation "a +++ b" := (String.append a b) (at level 60, right associativity).

Definition encode (s : str) : bytes := list_byte_of_string s.

Definition between (lo hi : N) (b : byte) : bool :=
  ((lo <=? Byte.to_N b) && (Byte.to_N b <=? hi))%N.

Definition is_cont (b : byte) : bool := between 128 191 b.

(** Well-formed three byte sequences: [E0 A0..BF], [E1..EC 80..BF],
    [ED 80..9F] (no surrogates), [EE..EF 80..BF], then one continuation. *)
Definition lead3 (b0 b1 : byte) : bool :=
  (between 224 224 b0 && between 160 191 b1)
  || (between 225 236 b0 && is_cont b1)
  || (between 237 237 b0 && between 128 159 b1)
  || (between 238 239 b0 && is_cont b1).

(** Well-formed four byte sequences: [F0 90..BF], [F1..F3 80..BF],
    [F4 80..8F], then two continuations. *)
Definition lead4 (b0 b1 : byte) : bool :=
  (between 240 240 b0 && between 144 191 b1)
  || (between 241 243 b0 && is_cont b1)
  || (between 244 244 b0 && between 128 143 b1).

(** Strict UTF-8: what [bytes.decode('utf-8')] accepts. *)
Fixpoint utf8_valid (l : bytes) : bool :=
  match l with
  | [] => true
  | b0 :: r0 =>
    if between 0 127 b0 then utf8_valid r0
    else
      match r0 with
      | [] => false
      | b1 :: r1 =>
        if between 194 223 b0 then is_cont b1 && utf8_valid r1
        else
          match r1 with
          | [] => false
          | b2 :: r2 =>
            if lead3 b0 b1 then is_cont b2 && utf8_valid r2
            else
              match r2 with
              | [] => false
              | b3 :: r3 =>
                lead4 b0 b1 && is_cont b2 && is_cont b3 && utf8_valid r3
              end
          end
      end
  end.

(** The characters [str.strip()] removes, by the length of their encoding:
    U+0009..000D, U+001C..001F and U+0020; U+0085 and U+00A0; U+1680,
    U+2000..200A, U+2028, U+2029, U+202F, U+205F and U+3000. *)
Definition ws1 (b0 : byte) : bool :=
  between 9 13 b0 || between 28 32 b0.

Definition ws2 (b0 b1 : byte) : bool :=
  between 194 194 b0 && (between 133 133 b1 || between 160 160 b1).

Definition ws3 (b0 b1 b2 : byte) : bool :=
  (between 225 225 b0 && between 154 154 b1 && between 128 128 b2)
  || (between 226 226 b0 && between 128 128 b1
      && (between 128 138 b2 || between 168 169 b2 || between 175 175 b2))
  || (between 226 226 b0 && between 129 129 b1 && between 159 159 b2)
  || (between 227 227 b0 && between 128 128 b1 && between 128 128 b2).

(** Leading whitespace of an encoded text. *)
Fixpoint lstrip (l : bytes) : bytes :=
  match l with
  | [] => []
  | b0 :: r0 =>
    if ws1 b0 then lstrip r0
    else
      match r0 with
      | [] => l
      | b1 :: r1 =>
        if ws2 b0 b1 then lstrip r1
        else
          match r1 with
          | [] => l
          | b2 :: r2 => if ws3 b0 b1 b2 then lstrip r2 else l
          end
      end
  end.

(** Trailing whitespace, read from the last byte backwards: the argument is
    the reversed text. *)
Fixpoint lstrip_rev (l : bytes) : bytes :=
  match l with
  | [] => []
  | b0 :: r0 =>
    if ws1 b0 then lstrip_rev r0
    else
      match r0 with
      | [] => l
      | b1 :: r1 =>
        if ws2 b1 b0 then lstrip_rev r1
        else
          match r1 with
          | [] => l
          | b2 :: r2 => if ws3 b2 b1 b0 then lstrip_rev r2 else l
          end
      end
  end.

Definition rstrip (l : bytes) : bytes := List.rev (lstrip_rev (List.rev l)).

Definition strip (l : bytes) : bytes := rstrip (lstrip l).

(** ** Exceptions and the state the script runs in *)

Inductive exn : Type :=
| ValueError (msg : str)
| UnicodeDecodeError (data : bytes)
| CalledProcessError (returncode : Z) (stderr : bytes)
| OSError
| NameError (name : str).

(** [except ValueError] also catches [UnicodeDecodeError], its subclass. *)
Definition is_ValueError (e : exn) : bool :=
  match e with
  | ValueError _ | UnicodeDecodeError _ => true
  | _ => false
  end.

Inductive res (A : Type) : Type :=
| Ret (a : A)
| Raise (e : exn).
Arguments Ret {A} a.
Arguments Raise {A} e.

(** [GitEnv.bytes_to_str]: [output.decode('utf-8').strip()]. *)
Definition bytes_to_str (output : bytes) : res str :=
  if utf8_valid output then Ret (string_of_list_byte (strip output))
  else Raise (UnicodeDecodeError output).

(** One call of [check_output]: working directory, argument vector and the
    bytes fed to standard input. *)
Record call : Type := mkCall {
  c_cwd : str;
  c_args : list str;
  c_input : option bytes
}.

(** What the external process did: it ran and exited, or it could not be
    started at all. *)
Inductive completed : Type :=
| Exited (returncode : Z) (stdout stderr : bytes)
| NotStarted.

Inductive outcome : Type :=
| Exit (code : Z)
| Uncaught (e : exn).


Local Open Scope string_scope.

Section Script.

(** The external tool: the state of everything outside the script, and
    what one process invocation does to it. *)
Variable World : Type.
Variable run : World -> call -> World * completed.

(** The text CPython gives a [UnicodeDecodeError] ([str(e)]). *)
Variable codec_error_text : bytes -> str.

Record state : Type := mkState {
  world : World;
  calls : list (call * completed);
  out : list str;
  err : list str
}.

Definition M (A : Type) : Type := state -> state * res A.

Definition ret {A} (a : A) : M A := fun s => (s, Ret a).

Definition raise {A} (e : exn) : M A := fun s => (s, Raise e).

Definition bind {A B} (m : M A) (k : A -> M B) : M B :=
  fun s =>
    match m s with
    | (s', Ret a) => k a s'
    | (s', Raise e) => (s', Raise e)
    end.

Definition lift {A} (r : res A) : M A := fun s => (s, r).

Notation "x <- m ;; k" := (bind m (fun x => k))
  (at level 61, m at next level, right associativity).
Notation "m ;;; k" := (bind m (fun _ => k))
  (at level 61, right associativity).

(** [try: m  except <classes h accepts>: ...]: [h e] is the handler for
    [e], or [None] when no clause matches and [e] goes on. *)
Definition try_except {A} (m : M A) (h : exn -> option (M A)) : M A :=
  fun s =>
    match m s with
    | (s', Ret a) => (s', Ret a)
    | (s', Raise e) =>
      match h e with
      | Some k => k s'
      | None => (s', Raise e)
      end
    end.

(** [subprocess.check_output(args, cwd=..., input=..., stderr=PIPE)]:
    the output of a process that exits with 0, [CalledProcessError] for
    any other status. *)
Definition check_output (c : call) : M bytes :=
  fun s =>
    let (w', r) := run (world s) c in
    let s' := mkState w' (calls s ++ [(c, r)]) (out s) (err s) in
    match r with
    | Exited rc o e =>
      if (rc =? 0)%Z then (s', Ret o)
      else (s', Raise (CalledProcessError rc e))
    | NotStarted => (s', Raise OSError)
    end.

(** [print(message, file=stream)]. *)
Definition print (message : str) (to_stderr : bool) : M unit :=
  fun s =>
    if to_stderr
    then (mkState (world s) (calls s) (out s) (err s ++ [message]), Ret tt)
    else (mkState (world s) (calls s) (out s ++ [message]) (err s), Ret tt).

(** *** class GitEnv *)

Record GitEnv : Type := mkGitEnv { repo_path : str }.

Definition cmd (self : GitEnv) (cmd_args : list str)
    (binary_input : option bytes) : M bytes :=
  check_output (mkCall (repo_path self) cmd_args binary_input).

Definition is_repo_valid (self : GitEnv) : M bool :=
  try_except
    (o <- cmd self ["git"; "rev-parse"; "--is-inside-work-tree"] None ;;
     t <- lift (bytes_to_str o) ;;
     ret (String.eqb "true" t))
    (fun _ => Some (ret false)).

Definition GitEnv_init (path : str) : M GitEnv :=
  let self := mkGitEnv path in
  valid <- is_repo_valid self ;;
  if negb valid
  then raise (ValueError (repo_path self
                          +++ " is not a valid git repository path"))
  else ret self.

Definition diff (self : GitEnv) (old_ref new_ref : str) : M bytes :=
  cmd self ["git"; "diff"; "--no-color"; "--binary"; old_ref; new_ref] None.

Definition apply (self : GitEnv) (d : bytes) : M unit :=
  cmd self ["git"; "apply"; "--index"] (Some d) ;;; ret tt.

Definition commit (self : GitEnv) (message : str) : M unit :=
  cmd self ["git"; "commit"; "-m"; message] None ;;; ret tt.

Definition get_branch (self : GitEnv) (reference : str) : M str :=
  o <- cmd self ["git"; "rev-parse"; "--abbrev-ref"; reference] None ;;
  result <- lift (bytes_to_str o) ;;
  ret (if negb (String.eqb result "HEAD") then result else "").

Definition get_sha (self : GitEnv) (reference : str) : M str :=
  o <- cmd self ["git"; "rev-parse"; reference] None ;;
  lift (bytes_to_str o).

Definition checkout (self : GitEnv) (reference : str) : M unit :=
  cmd self ["git"; "checkout"; "--quiet"; reference] None ;;; ret tt.

Definition reset_hard (self : GitEnv) (reference : str) : M unit :=
  cmd self ["git"; "reset"; "--hard"; reference] None ;;; ret tt.

(** *** class CmdParser: the namespace [argparse] hands back *)

Record CmdParser : Type := mkArgs {
  a_target : str;
  a_m : option str;
  a_p : str;
  a_s : str;
  a_quiet : bool
}.

Definition target (p : CmdParser) : str := a_target p.
Definition source (p : CmdParser) : str := a_s p.
Definition custom_message (p : CmdParser) : option str := a_m p.
Definition parser_repo_path (p : CmdParser) : str := a_p p.
Definition verbose (p : CmdParser) : bool := negb (a_quiet p).

(** *** class SquashOperation *)

Record SquashOperation : Type := mkSquash {
  git : GitEnv;
  target_ref : str;
  target_sha : str;
  source_sha : str;
  source_branch : str;
  message : str
}.

(** [custom_message or default]: [None] and the empty string are false. *)
Definition or_default (custom : option str) (default : str) : str :=
  match custom with
  | Some m => if String.eqb m "" then default else m
  | None => default
  end.

Definition SquashOperation_init (g : GitEnv) (target_r source_r : str)
    (custom : option str) : M SquashOperation :=
  r <- try_except
         (t <- get_sha g target_r ;;
          s <- get_sha g source_r ;;
          b <- get_branch g source_r ;;
          ret (t, s, b))
         (fun e =>
            match e with
            | CalledProcessError _ _ =>
              Some (raise (ValueError
                (target_r +++ " and " +++ source_r
                 +++ " must be both valid git references")))
            | _ => None
            end) ;;
  let '(t, s, b) := r in
  if String.eqb b ""
  then raise (ValueError (source_r +++ " must be a branch"))
  else ret (mkSquash g target_r t s b
              (or_default custom ("Squashed " +++ b))).

Definition perform (self : SquashOperation) : M unit :=
  checkout (git self) (target_sha self) ;;;
  d <- diff (git self) (target_sha self) (source_branch self) ;;
  apply (git self) d ;;;
  commit (git self) (message self) ;;;
  new_commit_sha <- get_sha (git self) "HEAD" ;;
  checkout (git self) (source_branch self) ;;;
  reset_hard (git self) new_commit_sha.

Definition revert (self : SquashOperation) : M unit :=
  checkout (git self) (source_branch self) ;;;
  reset_hard (git self) (source_sha self).

(** *** class Logger *)

Record Logger : Type := mkLogger { turned_on : bool }.

Definition log (self : Logger) (msg : str + bytes) (to_stderr : bool)
    : M unit :=
  if turned_on self then
    text <- match msg with
            | inl t => ret t
            | inr b => lift (bytes_to_str b)
            end ;;
    print text to_stderr
  else ret tt.

Definition info (self : Logger) (msg : str + bytes) : M unit :=
  log self msg false.

Definition error (self : Logger) (msg : str + bytes) : M unit :=
  log self msg true.

(** *** The [__main__] block *)

(** [str(e)] for the exceptions [except ValueError] catches. *)
Definition exn_str (e : exn) : str :=
  match e with
  | ValueError m => m
  | UnicodeDecodeError d => codec_error_text d
  | _ => ""
  end.

Definition success_message (squash : SquashOperation) : str :=
  "Successfully squashed " +++ source_branch squash +++ " onto "
    +++ target_ref squash +++ String "010" "To revert changes call: git reset --hard "
    +++ source_sha squash.

(** The body of [try:].  Besides the result it tells whether the name
    [squash] was bound when the body stopped. *)
Definition try_body (parser : CmdParser) (logger : Logger)
    : state -> state * option SquashOperation * res unit :=
  fun s0 =>
    match GitEnv_init (parser_repo_path parser) s0 with
    | (s1, Raise e) => (s1, None, Raise e)
    | (s1, Ret g) =>
      match SquashOperation_init g (target parser) (source parser)
              (custom_message parser) s1 with
      | (s2, Raise e) => (s2, None, Raise e)
      | (s2, Ret squash) =>
        let (s3, r) :=
          (perform squash ;;;
           info logger (inl (success_message squash))) s2 in
        (s3, Some squash, r)
      end
    end.

(** A handler that ends in [sys.exit(code)]. *)
Definition then_exit (m : M unit) (code : Z) : state -> state * outcome :=
  fun s =>
    match m s with
    | (s', Ret _) => (s', Exit code)
    | (s', Raise e) => (s', Uncaught e)
    end.

Definition main (parser : CmdParser) : state -> state * outcome :=
  fun s0 =>
    let logger := mkLogger (verbose parser) in
    let '(s1, squash, r) := try_body parser logger s0 in
    match r with
    | Ret _ => (s1, Exit 0)
    | Raise e =>
      if is_ValueError e then
        then_exit (error logger (inl (exn_str e))) 1 s1
      else
        match e with
        | CalledProcessError rc stderr =>
          then_exit
            (match squash with
             | Some sq => revert sq
             | None => raise (NameError "squash")
             end ;;;
             error logger (inr stderr))
            rc s1
        | _ => (s1, Uncaught e)
        end
    end.

End Script.

Arguments mkState {World} _ _ _ _.
Arguments world {World} _.
Arguments calls {World} _.
Arguments out {World} _.
Arguments err {World} _.
Arguments ret {World A} _ _.
Arguments raise {World A} _ _.
Arguments bind {World A B} _ _ _.
Arguments lift {World A} _ _.
Arguments try_except {World A} _ _ _.
Arguments check_output {World} _ _ _.
Arguments print {World} _ _ _.
Arguments cmd {World} _ _ _ _ _.
Arguments is_repo_valid {World} _ _ _.
Arguments GitEnv_init {World} _ _ _.
Arguments diff {World} _ _ _ _ _.
Arguments apply {World} _ _ _ _.
Arguments commit {World} _ _ _ _.
Arguments get_branch {World} _ _ _ _.
Arguments get_sha {World} _ _ _ _.
Arguments checkout {World} _ _ _ _.
Arguments reset_hard {World} _ _ _ _.
Arguments SquashOperation_init {World} _ _ _ _ _ _.
Arguments perform {World} _ _ _.
Arguments revert {World} _ _ _.
Arguments log {World} _ _ _ _.
Arguments info {World} _ _ _.
Arguments error {World} _ _ _.
Arguments try_body {World} _ _ _ _.
Arguments then_exit {World} _ _ _.
Arguments main {World} _ _ _ _.

(** ** A scripted tool

    The simplest external process: it answers the calls it receives with a
    list of results fixed in advance, whatever the call is.  It is the test
    double the concrete runs below use. *)

Module Scripted.

Definition World : Type := list completed.

Definition run (w : World) (c : call) : World * completed :=
  match w with
  | r :: w' => (w', r)
  | [] => ([], NotStarted)
  end.

Definition ok (text : str) : completed := Exited 0 (encode text) [].

Definition failed (rc : Z) (text : str) : completed :=
  Exited rc [] (encode text).

(** A line of output, as the tool prints it. *)
Definition line (text : str) : completed :=
  Exited 0 (encode (text +++ String "010" "")) [].

Definition start (w : World) : state World := mkState w [] [] [].

Definition no_text (d : bytes) : str := "".

(** The run of the specification's scenario: [main] is at [aaa111],
    [feature] at [bbb222], the squashed commit is [ccc333]. *)
Definition squash_main : CmdParser := mkArgs "main" None "/repo" "HEAD" false.

Definition resolved : World :=
  [line "true"; line "aaa111"; line "bbb222"; line "feature"].

Definition all_goes_well : World :=
  (resolved ++ [ok ""; ok "patch"; ok ""; ok ""; line "ccc333"; ok "";
                line "HEAD is now at ccc333"])%list.

(** The patch does not apply, the revert goes through. *)
Definition patch_conflict : World :=
  (resolved ++ [ok ""; ok "patch";
                failed 1 "error: patch failed";
                ok ""; line "HEAD is now at bbb222"])%list.



Definition unknown_target : World :=
  [line "true"; failed 128 "fatal: ambiguous argument"].

Definition detached_source : World :=
  [line "true"; line "aaa111"; line "bbb222"; line "HEAD"].

Definition not_a_repository : World :=
  [failed 128 "fatal: not a git repository"].

Definition the_env : GitEnv := mkGitEnv "/repo".

Definition the_squash : SquashOperation :=
  mkSquash the_env "main" "aaa111" "bbb222" "feature" "Squashed feature".

(** The states such a run goes through: after the repository check,
    after the operation was built, after [perform], after [revert]. *)
Definition checked (w : World) : state World :=
  fst (GitEnv_init run "/repo" (start w)).

Definition built (custom : option str) (w : World) : state World :=
  fst (SquashOperation_init run the_env "main" "HEAD" custom (checked w)).

Definition performed (w : World) : state World :=
  fst (perform run the_squash (built None w)).

Definition reverted (w : World) : state World :=
  fst (revert run the_squash (performed w)).

End Scripted.

(** ** The version-control tool *)

(** Modelled from the spec: the external version-control tool ([git])
    the script drives, which is not part of the repository.  The model
    follows the operations of the specification's environment adapter
    (resolve an identifier, resolve a branch name, diff, apply with
    staging, commit, quiet checkout, hard reset) on a repository reduced
    to what they touch: a store of commits, the branch tips, [HEAD] and
    one snapshot for the index and the work tree. *)
Module Git.

(** A snapshot of the tracked content. *)
Definition Tree : Type := bytes.

Record Commit : Type := mkCommit {
  c_parent : option nat;
  c_tree : Tree;
  c_message : str
}.

Inductive Head : Type :=
| OnBranch (b : str)
| Detached (c : nat).

(** Commits are numbered by their position in the object store; the
    index and the work tree always agree ([apply --index], [reset
    --hard]) and are one snapshot. *)
Record Repo : Type := mkRepo {
  objects : list Commit;
  branches : list (str * nat);
  head : Head;
  index : Tree
}.

(** What the environment does to the next command, whatever the command
    is: nothing, make it exit with a non-zero status, or keep it from
    starting. *)
Inductive fault : Type :=
| NoFault
| ToolFails (code : positive) (stderr : bytes)
| CannotStart.

Record World : Type := mkWorld {
  worktree : str;
  repo : Repo;
  faults : list fault
}.

(** The identifier of commit [n], as the tool prints it. *)
Definition sha_text (n : nat) : str :=
  HexadecimalString.NilEmpty.string_of_uint (Nat.to_hex_uint n).

Fixpoint lookup (b : str) (l : list (str * nat)) : option nat :=
  match l with
  | [] => None
  | (k, c) :: l' => if String.eqb k b then Some c else lookup b l'
  end.

Fixpoint update (b : str) (c : nat) (l : list (str * nat))
    : list (str * nat) :=
  match l with
  | [] => []
  | (k, c0) :: l' =>
    if String.eqb k b then (k, c) :: l' else (k, c0) :: update b c l'
  end.

Definition resolve_commit (objs : list Commit) (r : str) : option nat :=
  find (fun i => String.eqb (sha_text i) r) (seq 0 (length objs)).

Definition head_commit (r : Repo) : option nat :=
  match head r with
  | OnBranch b => lookup b (branches r)
  | Detached c => Some c
  end.

(** A reference is [HEAD], a branch name or a commit identifier. *)
Definition resolve (r : Repo) (x : str) : option nat :=
  if String.eqb x "HEAD" then head_commit r
  else
    match lookup x (branches r) with
    | Some c => Some c
    | None => resolve_commit (objects r) x
    end.

Definition tree_of (r : Repo) (c : nat) : option Tree :=
  option_map c_tree (nth_error (objects r) c).

Fixpoint bytes_eqb (a b : bytes) : bool :=
  match a, b with
  | [], [] => true
  | x :: a', y :: b' => Byte.eqb x y && bytes_eqb a' b'
  | _, _ => false
  end.

(** A patch from [old] to [new]: empty when nothing changed, otherwise
    the length of [old] in unary, a zero byte, [old], then [new]. *)
Definition encode_patch (old new : Tree) : bytes :=
  if bytes_eqb old new then []
  else (repeat x01 (List.length old) ++ x00 :: old ++ new)%list.

Fixpoint split_patch (p : bytes) (n : nat) : option (nat * bytes) :=
  match p with
  | x01 :: p' => split_patch p' (S n)
  | x00 :: p' => Some (n, p')
  | _ => None
  end.

Definition decode_patch (p : bytes) : option (Tree * Tree) :=
  match split_patch p 0 with
  | Some (n, rest) =>
    if (n <=? List.length rest)%nat
    then Some (firstn n rest, skipn n rest)
    else None
  | None => None
  end.

Inductive git_cmd : Type :=
| IsInsideWorkTree
| RevParse (x : str)
| AbbrevRef (x : str)
| Diff (a b : str)
| ApplyIndex
| CommitM (m : str)
| Checkout (x : str)
| ResetHard (x : str).

Definition parse_git (args : list str) : option git_cmd :=
  match args with
  | g :: sub :: rest =>
    if negb (String.eqb g "git") then None
    else if String.eqb sub "rev-parse" then
      match rest with
      | [x] =>
        if String.eqb x "--is-inside-work-tree" then Some IsInsideWorkTree
        else Some (RevParse x)
      | [o; x] =>
        if String.eqb o "--abbrev-ref" then Some (AbbrevRef x) else None
      | _ => None
      end
    else if String.eqb sub "diff" then
      match rest with
      | [o1; o2; a; b] =>
        if String.eqb o1 "--no-color" && String.eqb o2 "--binary"
        then Some (Diff a b) else None
      | _ => None
      end
    else if String.eqb sub "apply" then
      match rest with
      | [o] => if String.eqb o "--index" then Some ApplyIndex else None
      | _ => None
      end
    else if String.eqb sub "commit" then
      match rest with
      | [o; m] => if String.eqb o "-m" then Some (CommitM m) else None
      | _ => None
      end
    else if String.eqb sub "checkout" then
      match rest with
      | [o; x] => if String.eqb o "--quiet" then Some (Checkout x) else None
      | _ => None
      end
    else if String.eqb sub "reset" then
      match rest with
      | [o; x] => if String.eqb o "--hard" then Some (ResetHard x) else None
      | _ => None
      end
    else None
  | _ => None
  end.

Definition line (s : str) : bytes := encode (s +++ String "010" "").

Definition ok (o : bytes) : completed := Exited 0 o [].

Definition fails (rc : Z) (text : str) : completed :=
  Exited rc [] (encode text).

(** Moving the tip: the current branch when there is one, the detached
    [HEAD] otherwise. *)
Definition move_tip (r : Repo) (c : nat) (t : Tree) : Repo :=
  match head r with
  | OnBranch b => mkRepo (objects r) (update b c (branches r)) (head r) t
  | Detached _ => mkRepo (objects r) (branches r) (Detached c) t
  end.

(** Switching the work tree from snapshot [cur] to snapshot [new] with
    the index at [idx]: local changes are carried over when they do not
    conflict, and the switch is refused when they do. *)
Definition switch_index (cur new idx : Tree) : option Tree :=
  if bytes_eqb cur new then Some idx
  else if bytes_eqb idx cur then Some new
  else if bytes_eqb idx new then Some idx
  else None.

(** Modelled from the spec: what each command of the external tool does
    to the repository and what it prints (specification, section 4.1:
    the operations of the environment adapter).  A command that fails
    exits with a non-zero status and leaves the repository as it was. *)
Definition exec (r : Repo) (c : git_cmd) (input : option bytes)
    : Repo * completed :=
  match c with
  | IsInsideWorkTree => (r, ok (line "true"))
  | RevParse x =>
    match resolve r x with
    | Some n => (r, ok (line (sha_text n)))
    | None => (r, fails 128 "fatal: bad revision")
    end
  | AbbrevRef x =>
    if String.eqb x "HEAD" then
      match head r with
      | OnBranch b => (r, ok (line b))
      | Detached _ => (r, ok (line "HEAD"))
      end
    else
      match lookup x (branches r) with
      | Some _ => (r, ok (line x))
      | None =>
        match resolve_commit (objects r) x with
        | Some _ => (r, ok [])
        | None => (r, fails 128 "fatal: bad revision")
        end
      end
  | Diff a b =>
    match resolve r a, resolve r b with
    | Some ca, Some cb =>
      match tree_of r ca, tree_of r cb with
      | Some ta, Some tb => (r, ok (encode_patch ta tb))
      | _, _ => (r, fails 128 "fatal: bad object")
      end
    | _, _ => (r, fails 128 "fatal: bad revision")
    end
  | ApplyIndex =>
    match input with
    | Some p =>
      match decode_patch p with
      | Some (old, new) =>
        if bytes_eqb (index r) old
        then (mkRepo (objects r) (branches r) (head r) new, ok [])
        else (r, fails 1 "error: patch does not apply")
      | None => (r, fails 128 "error: No valid patches in input")
      end
    | None => (r, fails 128 "error: No valid patches in input")
    end
  | CommitM m =>
    match head_commit r with
    | Some cur =>
      match tree_of r cur with
      | Some t =>
        if bytes_eqb (index r) t
        then (r, fails 1 "nothing to commit, working tree clean")
        else
          let n := List.length (objects r) in
          let r' := mkRepo (objects r ++ [mkCommit (Some cur) (index r) m])%list
                      (branches r) (head r) (index r) in
          (move_tip r' n (index r), ok [])
      | None => (r, fails 128 "fatal: bad object HEAD")
      end
    | None => (r, fails 128 "fatal: bad object HEAD")
    end
  | Checkout x =>
    let dest :=
      if String.eqb x "HEAD" then
        match head_commit r with
        | Some c => Some (head r, c)
        | None => None
        end
      else
        match lookup x (branches r) with
        | Some c => Some (OnBranch x, c)
        | None =>
          match resolve_commit (objects r) x with
          | Some c => Some (Detached c, c)
          | None => None
          end
        end in
    match dest with
    | Some (h, c) =>
      match head_commit r with
      | Some cur =>
        match tree_of r cur, tree_of r c with
        | Some tcur, Some tnew =>
          match switch_index tcur tnew (index r) with
          | Some idx => (mkRepo (objects r) (branches r) h idx, ok [])
          | None =>
            (r, fails 1 "error: Your local changes would be overwritten")
          end
        | _, _ => (r, fails 128 "fatal: bad object")
        end
      | None => (r, fails 128 "fatal: bad object HEAD")
      end
    | None => (r, fails 1 "error: pathspec did not match")
    end
  | ResetHard x =>
    match resolve r x with
    | Some c =>
      match tree_of r c with
      | Some t => (move_tip r c t, ok (line ("HEAD is now at " +++ sha_text c)))
      | None => (r, fails 128 "fatal: bad object")
      end
    | None => (r, fails 128 "fatal: ambiguous argument")
    end
  end.

(** Modelled from the spec: one invocation of the external tool.  The
    environment may make any invocation fail; otherwise the command line
    is read and the command carried out in the repository at the work
    tree's path. *)
Definition run (w : World) (c : call) : World * completed :=
  match faults w with
  | ToolFails code e :: fs =>
    (mkWorld (worktree w) (repo w) fs, Exited (Zpos code) [] e)
  | CannotStart :: fs => (mkWorld (worktree w) (repo w) fs, NotStarted)
  | fs =>
    let w' := mkWorld (worktree w) (repo w) (tl fs) in
    if negb (String.eqb (c_cwd c) (worktree w))
    then (w', fails 128 "fatal: not a git repository")
    else
      match parse_git (c_args c) with
      | Some g =>
        let (r', res) := exec (repo w) g (c_input c) in
        (mkWorld (worktree w) r' (tl fs), res)
      | None => (w', fails 1 "usage: git <command> [<args>]")
      end
  end.

Definition start (w : World) : state World := mkState w [] [] [].

End Git.

(** ** Reading the log of calls *)

(** The commands the specification calls mutating: checkout, apply, commit
    and reset. *)
Definition mutating (c : call) : bool :=
  match c_args c with
  | _ :: sub :: _ =>
    String.eqb sub "checkout" || String.eqb sub "apply"
    || String.eqb sub "commit" || String.eqb sub "reset"
  | _ => false
  end.

Definition is_rev_parse (c : call) : bool :=
  match c_args c with
  | g :: sub :: _ => String.eqb g "git" && String.eqb sub "rev-parse"
  | _ => false
  end.

Definition succeeded (r : completed) : bool :=
  match r with
  | Exited rc _ _ => (rc =? 0)%Z
  | NotStarted => false
  end.

(** The exception [check_output] raises for a result, if any. *)
Definition failure_of (r : completed) : option exn :=
  match r with
  | Exited rc _ e => if (rc =? 0)%Z then None else Some (CalledProcessError rc e)
  | NotStarted => Some OSError
  end.

Definition stdout_of (r : completed) : bytes :=
  match r with
  | Exited _ o _ => o
  | NotStarted => []
  end.

(** The seven process calls behind the six steps of [perform], given the
    patch [d] the diff printed and the identifier [n] read back after the
    commit. *)
Definition squash_calls (op : SquashOperation) (d : bytes) (n : str)
    : list call :=
  let at_repo args input := mkCall (repo_path (git op)) args input in
  [ at_repo ["git"; "checkout"; "--quiet"; target_sha op] None;
    at_repo ["git"; "diff"; "--no-color"; "--binary";
             target_sha op; source_branch op] None;
    at_repo ["git"; "apply"; "--index"] (Some d);
    at_repo ["git"; "commit"; "-m"; message op] None;
    at_repo ["git"; "rev-parse"; "HEAD"] None;
    at_repo ["git"; "checkout"; "--quiet"; source_branch op] None;
    at_repo ["git"; "reset"; "--hard"; n] None ].

Definition revert_calls (op : SquashOperation) : list call :=
  let at_repo args input := mkCall (repo_path (git op)) args input in
  [ at_repo ["git"; "checkout"; "--quiet"; source_branch op] None;
    at_repo ["git"; "reset"; "--hard"; source_sha op] None ].

(** ** Well-formed repositories of the model *)

Definition plain (s : str) : bool := forallb (between 33 126) (encode s).

Definition is_sha (s : str) : bool :=
  match HexadecimalString.NilEmpty.uint_of_string s with
  | Some _ => true
  | None => false
  end.


Definition branch_name_ok (b : str) : bool :=
  plain b && negb (is_sha b) && negb (String.eqb b "HEAD").



(** A small repository: [main] at the first commit, [feature] three
    commits ahead of it. *)
Module GitDemo.





Definition env : GitEnv := mkGitEnv "/repo".

Definition start (r : Git.Repo) (fs : list Git.fault) : state Git.World :=
  Git.start (Git.mkWorld "/repo" r fs).

(** The operation the constructor builds for target [t_r]. *)
Definition squash (t_r : str) : SquashOperation :=
  mkSquash env t_r "0" "3" "feature" "Squashed feature".

Definition built (t_r s_r : str) (s : state Git.World) : state Git.World :=
  fst (SquashOperation_init Git.run env t_r s_r None s).

Definition performed (t_r : str) (s : state Git.World) : state Git.World :=
  fst (perform Git.run (squash t_r) s).

Definition reverted (t_r : str) (s : state Git.World) : state Git.World :=
  fst (revert Git.run (squash t_r) s).


End GitDemo.

(** ** One call of the tool, seen from the script *)

Section Trace.

Variable World : Type.
Variable run : World -> call -> World * completed.

(** The state once call [c] has been made in state [s]. *)
Definition after (s : state World) (c : call) : state World :=
  mkState (fst (run (world s) c))
          (calls s ++ [(c, snd (run (world s) c))])
          (out s) (err s).

(** What the tool answers to call [c] made in state [s]. *)
Definition answer (s : state World) (c : call) : completed :=
  snd (run (world s) c).

(** A line printed on standard error when the logger is on. *)
Definition logged_err (on : bool) (text : str) (s : state World)
    : state World :=
  if on then mkState (world s) (calls s) (out s) (err s ++ [text]) else s.

Definition logged_out (on : bool) (text : str) (s : state World)
    : state World :=
  if on then mkState (world s) (calls s) (out s ++ [text]) (err s) else s.

End Trace.

Arguments after {World} _ _ _.
Arguments answer {World} _ _ _.
Arguments logged_err {World} _ _ _.
Arguments logged_out {World} _ _ _.

Definition all_succeeded (l : list (call * completed)) : bool :=
  forallb (fun x => succeeded (snd x)) l.

Definition outputs (l : list (call * completed)) : list bytes :=
  map (fun x => stdout_of (snd x)) l.

(** The tool exited with 0 and printed [true], surrounded by whitespace at
    most. *)
Definition says_true (r : completed) : bool :=
  match failure_of r with
  | None =>
    match bytes_to_str (stdout_of r) with
    | Ret t => String.eqb "true" t
    | Raise _ => false
    end
  | Some _ => false
  end.

Definition validity_call (path : str) : call :=
  mkCall path ["git"; "rev-parse"; "--is-inside-work-tree"] None.

Definition sha_call (g : GitEnv) (x : str) : call :=
  mkCall (repo_path g) ["git"; "rev-parse"; x] None.

Definition branch_call (g : GitEnv) (x : str) : call :=
  mkCall (repo_path g) ["git"; "rev-parse"; "--abbrev-ref"; x] None.

Definition invalid_references (t_r s_r : str) : str :=
  t_r +++ " and " +++ s_r +++ " must be both valid git references".

Definition not_a_branch (s_r : str) : str := s_r +++ " must be a branch".

(** What the handler of the constructor does to an exception: a
    [CalledProcessError] becomes the "must be both valid" error, any other
    exception goes on. *)
Definition relabel (t_r s_r : str) (e : exn) : exn :=
  match e with
  | CalledProcessError _ _ => ValueError (invalid_references t_r s_r)
  | _ => e
  end.

Definition invalid_repository (path : str) : str :=
  path +++ " is not a valid git repository path".

(** ** What the whole script is measured against *)

(** The three resolutions of the constructor of [SquashOperation], in the
    order it makes them. *)
Definition constructor_calls (g : GitEnv) (t_r s_r : str) : list call :=
  [sha_call g t_r; sha_call g s_r; branch_call g s_r].



Definition ascii_only (l : bytes) : bool := forallb (between 0 127) l.

(** A text that is empty or has a printable character other than the
    space at both ends. *)
Definition trimmed (l : bytes) : bool :=
  match l with
  | [] => true
  | b :: _ => between 33 126 b && between 33 126 (last l b)
  end.

(** Two more scripted runs. *)
Module EdgeRuns.



End EdgeRuns.

(** * Facts that hold whatever the external tool does *)

Lemma failure_of_None r : failure_of r = None -> succeeded r = true.
Proof.
  destruct r as [rc o e|]; simpl; [|discriminate].
  destruct (rc =? 0)%Z; congruence.
Qed.

Lemma failure_of_not_value r e : failure_of r = Some e -> is_ValueError e = false.
Proof.
  destruct r as [rc o e'|]; simpl.
  - destruct (rc =? 0)%Z; intros [= <-]; reflexivity.
  - intros [= <-]; reflexivity.
Qed.

Lemma failure_of_not_name r name :
  failure_of r = Some (NameError name) -> False.
Proof.
  destruct r as [rc o e'|]; simpl; [|discriminate].
  destruct (rc =? 0)%Z; discriminate.
Qed.

Lemma failure_of_process r rc e :
  failure_of r = Some (CalledProcessError rc e) -> rc <> 0%Z.
Proof.
  destruct r as [rc' o e'|]; simpl; [|discriminate].
  destruct (rc' =? 0)%Z eqn:Z; [discriminate|].
  intros [= -> _] ->. discriminate.
Qed.

Lemma bytes_to_str_raise o e :
  bytes_to_str o = Raise e -> e = UnicodeDecodeError o.
Proof. unfold bytes_to_str. destruct (utf8_valid o); congruence. Qed.


(** ** Lists of calls *)

Lemma prefix_calls (P : call -> bool) (entries : list (call * completed))
    (full : list call) :
  map fst entries = firstn (List.length entries) full ->
  forallb P full = true ->
  forallb P (map fst entries) = true
  /\ (List.length entries <= List.length full)%nat.
Proof.
  intros M F. split.
  - rewrite M. apply forallb_forall. intros x Hx.
    rewrite forallb_forall in F. apply F.
    rewrite <- (firstn_skipn (List.length entries) full).
    apply in_or_app. left. exact Hx.
  - apply (f_equal (@List.length call)) in M.
    rewrite length_map, length_firstn in M. lia.
Qed.





Section ScriptFacts.

Variable World : Type.
Variable run : World -> call -> World * completed.
Variable codec_error_text : bytes -> str.

Let St := state World.

Lemma check_output_eq c (s : St) :
  check_output run c s =
  (after run s c,
   match failure_of (answer run s c) with
   | None => Ret (stdout_of (answer run s c))
   | Some e => Raise e
   end).
Proof.
  unfold check_output, after, answer.
  destruct (run (world s) c) as [w' [rc o e|]]; simpl; [|reflexivity].
  destruct (rc =? 0)%Z; reflexivity.
Qed.

Lemma is_repo_valid_eq g (s : St) :
  is_repo_valid run g s =
  (after run s (validity_call (repo_path g)),
   Ret (says_true (answer run s (validity_call (repo_path g))))).
Proof.
  unfold is_repo_valid, try_except, bind, cmd, lift, ret, says_true,
    validity_call.
  rewrite check_output_eq.
  destruct (failure_of _); [reflexivity|].
  destruct (bytes_to_str _); reflexivity.
Qed.

Lemma GitEnv_init_eq path (s : St) :
  GitEnv_init run path s =
  (after run s (validity_call path),
   if says_true (answer run s (validity_call path))
   then Ret (mkGitEnv path)
   else Raise (ValueError (invalid_repository path))).
Proof.
  unfold GitEnv_init, bind. rewrite is_repo_valid_eq. simpl.
  destruct (says_true _); reflexivity.
Qed.

Lemma get_sha_eq g x (s : St) :
  get_sha run g x s =
  (after run s (sha_call g x),
   match failure_of (answer run s (sha_call g x)) with
   | None => bytes_to_str (stdout_of (answer run s (sha_call g x)))
   | Some e => Raise e
   end).
Proof.
  unfold get_sha, bind, cmd, lift. rewrite check_output_eq.
  destruct (failure_of _); reflexivity.
Qed.

Lemma get_branch_eq g x (s : St) :
  get_branch run g x s =
  (after run s (branch_call g x),
   match failure_of (answer run s (branch_call g x)) with
   | None =>
     match bytes_to_str (stdout_of (answer run s (branch_call g x))) with
     | Ret t => Ret (if negb (String.eqb t "HEAD") then t else "")
     | Raise e => Raise e
     end
   | Some e => Raise e
   end).
Proof.
  unfold get_branch, bind, cmd, lift, ret. rewrite check_output_eq.
  destruct (failure_of _); [reflexivity|].
  destruct (bytes_to_str _); reflexivity.
Qed.

(** What a resolution leaves behind, whether it raised or not. *)
Lemma get_sha_after g x (s s' : St) r :
  get_sha run g x s = (s', r) -> s' = after run s (sha_call g x).
Proof. rewrite get_sha_eq. congruence. Qed.

Lemma get_branch_after g x (s s' : St) r :
  get_branch run g x s = (s', r) -> s' = after run s (branch_call g x).
Proof. rewrite get_branch_eq. congruence. Qed.

Lemma get_sha_not_value_free g x (s s' : St) e :
  get_sha run g x s = (s', Raise e) ->
  (exists o, e = UnicodeDecodeError o)
  \/ failure_of (answer run s (sha_call g x)) = Some e.
Proof.
  rewrite get_sha_eq. intros [= _ H].
  destruct (failure_of _) eqn:F.
  - right. congruence.
  - left. eexists. eapply bytes_to_str_raise; eassumption.
Qed.

(** The constructor, one resolution after the other. *)
Lemma SquashOperation_init_eq g t_r s_r custom (s : St) :
  SquashOperation_init run g t_r s_r custom s =
  match get_sha run g t_r s with
  | (s1, Raise e) => (s1, Raise (relabel t_r s_r e))
  | (s1, Ret t) =>
    match get_sha run g s_r s1 with
    | (s2, Raise e) => (s2, Raise (relabel t_r s_r e))
    | (s2, Ret sh) =>
      match get_branch run g s_r s2 with
      | (s3, Raise e) => (s3, Raise (relabel t_r s_r e))
      | (s3, Ret b) =>
        if String.eqb b ""
        then (s3, Raise (ValueError (not_a_branch s_r)))
        else (s3, Ret (mkSquash g t_r t sh b
                         (or_default custom ("Squashed " +++ b))))
      end
    end
  end.
Proof.
  unfold SquashOperation_init, try_except, bind, ret, raise.
  destruct (get_sha run g t_r s) as [s1 [t|e]].
  2:{ destruct e; reflexivity. }
  destruct (get_sha run g s_r s1) as [s2 [sh|e]].
  2:{ destruct e; reflexivity. }
  destruct (get_branch run g s_r s2) as [s3 [b|e]].
  2:{ destruct e; reflexivity. }
  destruct (String.eqb b ""); reflexivity.
Qed.

Lemma relabel_not_process t_r s_r e rc err :
  relabel t_r s_r e <> CalledProcessError rc err.
Proof. destruct e; simpl; discriminate. Qed.

(** The constructor makes at most three calls, all of them [rev-parse]. *)
Lemma SquashOperation_init_calls g t_r s_r custom (s s' : St) r :
  SquashOperation_init run g t_r s_r custom s = (s', r) ->
  exists entries,
    calls s' = (calls s ++ entries)%list
    /\ forallb is_rev_parse (map fst entries) = true
    /\ existsb mutating (map fst entries) = false
    /\ out s' = out s /\ err s' = err s.
Proof.
  rewrite SquashOperation_init_eq.
  destruct (get_sha run g t_r s) as [s1 r1] eqn:E1.
  apply get_sha_after in E1. subst s1.
  destruct r1 as [t|e].
  2:{ intros [= <- _]. exists [(sha_call g t_r, answer run s (sha_call g t_r))].
      repeat split; reflexivity. }
  destruct (get_sha run g s_r _) as [s2 r2] eqn:E2.
  apply get_sha_after in E2. subst s2.
  destruct r2 as [sh|e].
  2:{ intros [= <- _]. eexists [_; _]. unfold after; simpl.
      rewrite <- app_assoc. repeat split; reflexivity. }
  destruct (get_branch run g s_r _) as [s3 r3] eqn:E3.
  apply get_branch_after in E3. subst s3.
  assert (exists entries,
    calls (after run (after run (after run s (sha_call g t_r)) (sha_call g s_r))
                 (branch_call g s_r)) = (calls s ++ entries)%list
    /\ forallb is_rev_parse (map fst entries) = true
    /\ existsb mutating (map fst entries) = false) as (entries & C & R & Mu).
  { eexists [_; _; _]. unfold after; simpl.
    rewrite <- !app_assoc. repeat split; reflexivity. }
  destruct r3 as [b|e].
  2:{ intros [= <- _]. exists entries. repeat split; assumption. }
  destruct (String.eqb b ""); intros [= <- _]; exists entries;
    repeat split; assumption.
Qed.

(** A [ValueError] caught in [__main__]: the text goes to standard error
    and the process exits with 1, without another call of the tool. *)
Lemma value_error_exit (logger : Logger) e (s : St) :
  then_exit (error logger (inl (exn_str codec_error_text e))) 1 s
  = (logged_err (turned_on logger) (exn_str codec_error_text e) s, Exit 1).
Proof.
  unfold then_exit, error, log, logged_err, bind, ret, print.
  destruct (turned_on logger); reflexivity.
Qed.

(** *** The [try] body of [__main__], case by case *)

Lemma try_body_invalid_repo parser logger (s0 s1 : St) e :
  GitEnv_init run (parser_repo_path parser) s0 = (s1, Raise e) ->
  try_body run parser logger s0 = (s1, None, Raise e).
Proof. unfold try_body. intros ->. reflexivity. Qed.

Lemma try_body_invalid_refs parser logger (s0 s1 s2 : St) g e :
  GitEnv_init run (parser_repo_path parser) s0 = (s1, Ret g) ->
  SquashOperation_init run g (target parser) (source parser)
    (custom_message parser) s1 = (s2, Raise e) ->
  try_body run parser logger s0 = (s2, None, Raise e).
Proof. unfold try_body. intros -> ->. reflexivity. Qed.


Lemma try_body_done parser logger (s0 s1 s2 s3 : St) g op :
  GitEnv_init run (parser_repo_path parser) s0 = (s1, Ret g) ->
  SquashOperation_init run g (target parser) (source parser)
    (custom_message parser) s1 = (s2, Ret op) ->
  perform run op s2 = (s3, Ret tt) ->
  try_body run parser logger s0
  = (logged_out (turned_on logger) (success_message op) s3, Some op, Ret tt).
Proof.
  unfold try_body, bind, info, log, logged_out, print, ret.
  intros -> -> ->. destruct (turned_on logger); reflexivity.
Qed.

Lemma main_value_error parser (s0 s1 : St) sq e :
  try_body run parser (mkLogger (verbose parser)) s0 = (s1, sq, Raise e) ->
  is_ValueError e = true ->
  main run codec_error_text parser s0
  = (logged_err (verbose parser) (exn_str codec_error_text e) s1, Exit 1).
Proof.
  unfold main. intros -> ->. apply value_error_exit.
Qed.

(** The name [squash] is bound whenever the [try] body stops on a
    [CalledProcessError]. *)
Lemma try_body_process_error parser logger (s0 s1 : St) sq rc stderr :
  try_body run parser logger s0 = (s1, sq, Raise (CalledProcessError rc stderr)) ->
  exists op g sa sb,
    sq = Some op
    /\ GitEnv_init run (parser_repo_path parser) s0 = (sa, Ret g)
    /\ SquashOperation_init run g (target parser) (source parser)
         (custom_message parser) sa = (sb, Ret op)
    /\ perform run op sb = (s1, Raise (CalledProcessError rc stderr)).
Proof.
  unfold try_body.
  destruct (GitEnv_init run (parser_repo_path parser) s0) as [sa [g|e]] eqn:G.
  2:{ rewrite GitEnv_init_eq in G.
      destruct (says_true _); inversion G; subst; discriminate. }
  destruct (SquashOperation_init run g _ _ _ sa) as [sb [op|e]] eqn:I.
  2:{ intros [= _ _ E]. exfalso. revert I. rewrite SquashOperation_init_eq.
      destruct (get_sha run g (target parser) sa) as [x1 [t|e1]].
      2:{ intros [= _ E']. subst e. eapply relabel_not_process; eauto. }
      destruct (get_sha run g (source parser) x1) as [x2 [sh|e2]].
      2:{ intros [= _ E']. subst e. eapply relabel_not_process; eauto. }
      destruct (get_branch run g (source parser) x2) as [x3 [b|e3]].
      2:{ intros [= _ E']. subst e. eapply relabel_not_process; eauto. }
      destruct (String.eqb b ""); intros [= _ E']; subst e; discriminate. }
  unfold bind.
  destruct (perform run op sb) as [sc [[]|e]] eqn:P.
  - unfold info, log, bind, print, ret.
    destruct (turned_on logger); intros [= _ _ E]; discriminate.
  - intros [= <- <- ->]. exists op, g, sa, sb. repeat split; assumption.
Qed.

(** *** The squash sequence *)

Ltac step :=
  rewrite check_output_eq; cbv beta iota;
  match goal with
  | |- context [failure_of ?a] =>
    let F := fresh "F" in destruct (failure_of a) eqn:F
  end.

Ltac ok_all :=
  repeat match goal with
         | H : failure_of _ = None |- _ => apply failure_of_None in H
         end;
  unfold all_succeeded, after, answer in *; simpl in *;
  repeat match goal with
         | H : succeeded _ = true |- _ => rewrite H; clear H
         end;
  reflexivity.

Ltac close_trace :=
  intros E; inversion E; subst; clear E;
  eexists; eexists; eexists;
  split; [ unfold after; simpl; rewrite <- ?app_assoc; simpl; reflexivity | ];
  split; [ simpl; reflexivity | ];
  split; [ simpl; intros; try lia; try reflexivity |];
  split; [ simpl; intros; try lia;
           try (eexists; split; [reflexivity|];
                match goal with D : bytes_to_str _ = _ |- _ => exact D end) |].

Ltac fail_leaf :=
  left;
  match goal with
  | |- exists pre c res, ?l = _ /\ _ => exists (removelast l)
  end;
  eexists; eexists;
  split; [simpl; reflexivity|];
  split; [simpl; ok_all | assumption].

(** C2. [perform] makes the calls of the squash sequence, in that order,
    each one once: check out the target identifier, diff target to
    source branch, apply the patch just printed with [--index], commit
    with the effective message, read the identifier of [HEAD], check out
    the source branch, hard-reset it to the identifier just read.  When
    it returns all seven calls succeeded; when it raises, the calls made
    are an initial part of the sequence and the last of them is the one
    that failed (or the identifier read back did not decode), so nothing
    is retried and nothing runs after a failure. *)
Theorem perform_sequence op (s s' : St) r :
  perform run op s = (s', r) ->
  exists entries d n,
    calls s' = (calls s ++ entries)%list
    /\ map fst entries = firstn (List.length entries) (squash_calls op d n)
    /\ ((2 < List.length entries)%nat ->
        nth_error (outputs entries) 1 = Some d)
    /\ ((6 < List.length entries)%nat ->
        exists o, nth_error (outputs entries) 4 = Some o
                  /\ bytes_to_str o = Ret n)
    /\ match r with
       | Ret _ =>
         List.length entries = 7%nat /\ all_succeeded entries = true
       | Raise e =>
         (exists pre c res,
             entries = (pre ++ [(c, res)])%list
             /\ all_succeeded pre = true
             /\ failure_of res = Some e)
         \/ (List.length entries = 5%nat
             /\ all_succeeded entries = true
             /\ exists o, nth_error (outputs entries) 4 = Some o
                          /\ bytes_to_str o = Raise e)
       end.
Proof.
  unfold perform, checkout, diff, apply, commit, get_sha, reset_hard, cmd,
    bind, ret, lift, outputs.
  step; [close_trace; fail_leaf|].
  step; [close_trace; fail_leaf|].
  step; [close_trace; fail_leaf|].
  step; [close_trace; fail_leaf|].
  step; [close_trace; fail_leaf|].
  destruct (bytes_to_str _) as [n|e] eqn:D.
  2:{ close_trace. right. split; [reflexivity|]. split; [ok_all|].
      eexists; split; [reflexivity|]. exact D. }
  step; [close_trace; fail_leaf|].
  step; [close_trace; fail_leaf|].
  close_trace.
  split; [reflexivity|]. ok_all.
  Unshelve. all: first [exact [] | exact ""].
Qed.

(** Neither [perform] nor [revert] prints anything. *)
Lemma perform_streams op (s s' : St) r :
  perform run op s = (s', r) -> out s' = out s /\ err s' = err s.
Proof.
  unfold perform, checkout, diff, apply, commit, get_sha, reset_hard, cmd,
    bind, ret, lift.
  repeat (step; [intros [= <- _]; split; reflexivity|]).
  destruct (bytes_to_str _); [|intros [= <- _]; split; reflexivity].
  repeat (step; [intros [= <- _]; split; reflexivity|]).
  intros [= <- _]; split; reflexivity.
Qed.

(** [revert] checks out the source branch, then hard-resets it to the
    identifier the source had when the operation was built; the reset is
    not attempted when the checkout fails. *)
Lemma revert_calls_made op (s s' : St) r :
  revert run op s = (s', r) ->
  exists entries,
    calls s' = (calls s ++ entries)%list
    /\ map fst entries = firstn (List.length entries) (revert_calls op)
    /\ (1 <= List.length entries)%nat
    /\ (r = Ret tt -> List.length entries = 2%nat
                      /\ all_succeeded entries = true).
Proof.
  unfold revert, checkout, reset_hard, cmd, bind, ret.
  step.
  { intros [= <- <-]. eexists [_]. unfold after; simpl.
    repeat split; try reflexivity; try lia; discriminate. }
  step.
  { intros [= <- <-]. eexists [_; _]. unfold after; simpl.
    rewrite <- app_assoc.
    repeat split; try reflexivity; try (simpl; lia); discriminate. }
  intros [= <- <-]. eexists [_; _]. unfold after; simpl.
  rewrite <- app_assoc. repeat split; try reflexivity; try (simpl; lia).
  ok_all.
Qed.

(** *** Construction *)

(** C4. When the target or the source fails to resolve (the [rev-parse]
    call made for it exits with a non-zero status), the constructor
    raises the "must be both valid git references" error, it has made
    [rev-parse] calls only, and [__main__] prints that text and exits
    with 1 without any checkout, apply, commit or reset. *)
Theorem unresolvable_reference_rejected parser g (s0 s : St) :
  GitEnv_init run (parser_repo_path parser) s0 = (s, Ret g) ->
  (exists s1 rc e,
      get_sha run g (target parser) s = (s1, Raise (CalledProcessError rc e)))
  \/ (exists s1 t s2 rc e,
         get_sha run g (target parser) s = (s1, Ret t)
         /\ get_sha run g (source parser) s1
            = (s2, Raise (CalledProcessError rc e))) ->
  exists s' entries,
    SquashOperation_init run g (target parser) (source parser)
      (custom_message parser) s
    = (s', Raise (ValueError
                    (invalid_references (target parser) (source parser))))
    /\ calls s' = (calls s ++ entries)%list
    /\ forallb is_rev_parse (map fst entries) = true
    /\ existsb mutating (map fst entries) = false
    /\ main run codec_error_text parser s0
       = (logged_err (verbose parser)
            (invalid_references (target parser) (source parser)) s',
          Exit 1).
Proof.
  intros G H.
  assert (exists s',
    SquashOperation_init run g (target parser) (source parser)
      (custom_message parser) s
    = (s', Raise (ValueError
                    (invalid_references (target parser) (source parser)))))
    as [s' I].
  { rewrite SquashOperation_init_eq.
    destruct H as [(s1 & rc & e & H1) | (s1 & t & s2 & rc & e & H1 & H2)].
    - rewrite H1. eexists; reflexivity.
    - rewrite H1, H2. eexists; reflexivity. }
  destruct (SquashOperation_init_calls _ _ _ _ _ _ _ I)
    as (entries & C & R & Mu & _).
  exists s', entries. repeat split; try assumption.
  exact (main_value_error parser s0 s' None _
           (try_body_invalid_refs _ _ _ _ _ _ _ G I) eq_refl).
Qed.

(** C5. When the source resolves but [get_branch] gives the empty string
    for it (the tool printed [HEAD]: a detached reference), the
    constructor raises "<source> must be a branch", and [__main__] exits
    with 1 in the state the constructor left: [perform] made no call. *)
Theorem detached_source_rejected parser g (s0 s s1 s2 s3 : St) t sh :
  GitEnv_init run (parser_repo_path parser) s0 = (s, Ret g) ->
  get_sha run g (target parser) s = (s1, Ret t) ->
  get_sha run g (source parser) s1 = (s2, Ret sh) ->
  get_branch run g (source parser) s2 = (s3, Ret "") ->
  SquashOperation_init run g (target parser) (source parser)
    (custom_message parser) s
  = (s3, Raise (ValueError (not_a_branch (source parser))))
  /\ main run codec_error_text parser s0
     = (logged_err (verbose parser) (not_a_branch (source parser)) s3,
        Exit 1)
  /\ calls s3
     = (calls s ++ [(sha_call g (target parser),
                     answer run s (sha_call g (target parser)));
                    (sha_call g (source parser),
                     answer run s1 (sha_call g (source parser)));
                    (branch_call g (source parser),
                     answer run s2 (branch_call g (source parser)))])%list.
Proof.
  intros G H1 H2 H3.
  assert (SquashOperation_init run g (target parser) (source parser)
            (custom_message parser) s
          = (s3, Raise (ValueError (not_a_branch (source parser))))) as I.
  { rewrite SquashOperation_init_eq, H1, H2, H3. reflexivity. }
  split; [exact I|]. split.
  - exact (main_value_error parser s0 s3 None _
             (try_body_invalid_refs _ _ _ _ _ _ _ G I) eq_refl).
  - apply get_sha_after in H1, H2. apply get_branch_after in H3.
    subst s3 s2 s1. unfold after; simpl. rewrite <- !app_assoc. reflexivity.
Qed.

(** The tool printing [HEAD] is the case [get_branch] maps to the empty
    string. *)
Lemma get_branch_detached g x (s : St) :
  failure_of (answer run s (branch_call g x)) = None ->
  bytes_to_str (stdout_of (answer run s (branch_call g x))) = Ret "HEAD" ->
  get_branch run g x s = (after run s (branch_call g x), Ret "").
Proof. intros F D. rewrite get_branch_eq, F, D. reflexivity. Qed.

(** C6, as the code has it.  The effective message is the custom message
    when one is given and it is not the empty string; it is
    "Squashed <source branch>" when none is given and when the empty
    string is given. *)
Theorem effective_message g t_r s_r custom (s s' : St) op :
  SquashOperation_init run g t_r s_r custom s = (s', Ret op) ->
  (custom = None -> message op = "Squashed " +++ source_branch op)
  /\ (forall m, custom = Some m -> m <> "" -> message op = m)
  /\ (custom = Some "" -> message op = "Squashed " +++ source_branch op).
Proof.
  rewrite SquashOperation_init_eq.
  destruct (get_sha run g t_r s) as [s1 [t|e]]; [|discriminate].
  destruct (get_sha run g s_r s1) as [s2 [sh|e]]; [|discriminate].
  destruct (get_branch run g s_r s2) as [s3 [b|e]]; [|discriminate].
  destruct (String.eqb b ""); [discriminate|].
  intros [= _ <-]. simpl. repeat split.
  - intros ->. reflexivity.
  - intros m -> Hm. simpl. destruct (String.eqb_spec m ""); congruence.
  - intros ->. reflexivity.
Qed.

(** *** The outcome of the process *)


(** [perform] raises a [CalledProcessError] only for a command that
    exited with a non-zero status. *)
Lemma perform_process_error op (s s' : St) rc stderr :
  perform run op s = (s', Raise (CalledProcessError rc stderr)) ->
  rc <> 0%Z.
Proof.
  unfold perform, checkout, diff, apply, commit, get_sha, reset_hard, cmd,
    bind, ret, lift.
  repeat (step; [intros [= _ ->]; eapply failure_of_process; eassumption|]).
  destruct (bytes_to_str _) eqn:D;
    [|intros [= _ ->]; apply bytes_to_str_raise in D; discriminate].
  repeat (step; [intros [= _ ->]; eapply failure_of_process; eassumption|]).
  discriminate.
Qed.


(** C8. When [perform] returns, [__main__] exits with 0 and what it wrote
    on standard output is, unless [--quiet] was given, the one message
    "Successfully squashed <source branch> onto <target>" followed by the
    line "To revert changes call: git reset --hard <identifier>", where
    the target is the reference as given and the identifier is the one
    the source resolved to when the operation was built, before
    [perform] ran.  Nothing goes to standard error. *)
Theorem success_report parser g (s0 s1 s2 s3 : St) op :
  GitEnv_init run (parser_repo_path parser) s0 = (s1, Ret g) ->
  SquashOperation_init run g (target parser) (source parser)
    (custom_message parser) s1 = (s2, Ret op) ->
  perform run op s2 = (s3, Ret tt) ->
  let text :=
    "Successfully squashed " +++ source_branch op +++ " onto "
      +++ target parser +++ String "010" ""
      +++ "To revert changes call: git reset --hard " +++ source_sha op in
  main run codec_error_text parser s0
  = (logged_out (verbose parser) text s3, Exit 0)
  /\ out (logged_out (verbose parser) text s3)
     = (out s0 ++ if verbose parser then [text] else [])%list
  /\ err (logged_out (verbose parser) text s3) = err s0
  /\ exists sa sb,
      get_sha run g (target parser) s1 = (sa, Ret (target_sha op))
      /\ get_sha run g (source parser) sa = (sb, Ret (source_sha op)).
Proof.
  intros G I P text.
  assert (target_ref op = target parser
          /\ exists sa sb,
              get_sha run g (target parser) s1 = (sa, Ret (target_sha op))
              /\ get_sha run g (source parser) sa
                 = (sb, Ret (source_sha op))) as [T R].
  { revert I. rewrite SquashOperation_init_eq.
    destruct (get_sha run g (target parser) s1) as [x1 [t|e]] eqn:E1;
      [|discriminate].
    destruct (get_sha run g (source parser) x1) as [x2 [sh|e]] eqn:E2;
      [|discriminate].
    destruct (get_branch run g (source parser) x2) as [x3 [b|e]];
      [|discriminate].
    destruct (String.eqb b ""); [discriminate|].
    intros [= _ <-]. simpl. split; [reflexivity|].
    exists x1, x2. split; [reflexivity | exact E2]. }
  assert (success_message op = text) as M.
  { unfold success_message, text. rewrite T. reflexivity. }
  destruct (perform_streams _ _ _ _ P) as [O3 E3].
  destruct (SquashOperation_init_calls _ _ _ _ _ _ _ I)
    as (_ & _ & _ & _ & O2 & E2).
  assert (out s1 = out s0 /\ err s1 = err s0) as [O1 E1].
  { rewrite GitEnv_init_eq in G. inversion G. split; reflexivity. }
  split; [|split; [|split]].
  - unfold main. rewrite (try_body_done _ _ _ _ _ _ _ _ G I P).
    simpl. rewrite M. reflexivity.
  - unfold logged_out. destruct (verbose parser); simpl.
    + rewrite O3, O2, O1. reflexivity.
    + rewrite app_nil_r, O3, O2, O1. reflexivity.
  - unfold logged_out. destruct (verbose parser); simpl; rewrite E3, E2, E1; reflexivity.
  - exact R.
Qed.

(** C9. The repository check always returns: its result is [true] when
    the tool exited with 0 and printed [true], and [false] otherwise,
    in particular when the call raised or its output did not decode.
    When it is [false], building the repository handle raises "<path> is
    not a valid git repository path" and [__main__] exits with 1, that
    one call being the only one made. *)
Theorem repository_validity_check path (s : St) :
  let c := validity_call path in
  is_repo_valid run (mkGitEnv path) s
  = (after run s c, Ret (says_true (answer run s c)))
  /\ (forall e, failure_of (answer run s c) = Some e ->
                says_true (answer run s c) = false)
  /\ (forall e, bytes_to_str (stdout_of (answer run s c)) = Raise e ->
                says_true (answer run s c) = false)
  /\ (says_true (answer run s c) = false ->
      GitEnv_init run path s
      = (after run s c, Raise (ValueError (invalid_repository path)))
      /\ forall parser,
          parser_repo_path parser = path ->
          main run codec_error_text parser s
          = (logged_err (verbose parser) (invalid_repository path)
               (after run s c), Exit 1)
          /\ calls (logged_err (verbose parser) (invalid_repository path)
                      (after run s c))
             = (calls s ++ [(c, answer run s c)])%list).
Proof.
  intros c. split; [apply (is_repo_valid_eq (mkGitEnv path))|].
  split; [|split].
  - intros e F. unfold says_true. rewrite F. reflexivity.
  - intros e D. unfold says_true. rewrite D.
    destruct (failure_of _); reflexivity.
  - intros V.
    assert (GitEnv_init run path s
            = (after run s c, Raise (ValueError (invalid_repository path))))
      as G.
    { rewrite GitEnv_init_eq. fold c. rewrite V. reflexivity. }
    split; [exact G|].
    intros parser <-. split.
    + exact (main_value_error parser s _ None _
               (try_body_invalid_repo _ _ _ _ _ G) eq_refl).
    + unfold logged_err. destruct (verbose parser); reflexivity.
Qed.

(** No call of the tool raises a [NameError]. *)
Lemma get_sha_not_name g x (s s' : St) name :
  get_sha run g x s = (s', Raise (NameError name)) -> False.
Proof.
  intros H. destruct (get_sha_not_value_free _ _ _ _ _ H) as [[o E] | F].
  - discriminate.
  - eapply failure_of_not_name; eassumption.
Qed.

Lemma get_branch_not_name g x (s s' : St) name :
  get_branch run g x s = (s', Raise (NameError name)) -> False.
Proof.
  rewrite get_branch_eq.
  destruct (failure_of _) eqn:F.
  - intros [= _ ->]. eapply failure_of_not_name; eassumption.
  - destruct (bytes_to_str _) eqn:D; [discriminate|].
    intros [= _ ->]. apply bytes_to_str_raise in D. discriminate.
Qed.

Lemma relabel_name t_r s_r e name :
  relabel t_r s_r e = NameError name -> e = NameError name.
Proof. destruct e; simpl; intros H; try discriminate; exact H. Qed.

Lemma SquashOperation_init_not_name g t_r s_r custom (s s' : St) name :
  SquashOperation_init run g t_r s_r custom s = (s', Raise (NameError name))
  -> False.
Proof.
  rewrite SquashOperation_init_eq.
  destruct (get_sha run g t_r s) as [x1 [t|e1]] eqn:E1.
  2:{ intros [= _ R]. apply relabel_name in R. subst e1.
      eapply get_sha_not_name; eassumption. }
  destruct (get_sha run g s_r x1) as [x2 [sh|e2]] eqn:E2.
  2:{ intros [= _ R]. apply relabel_name in R. subst e2.
      eapply get_sha_not_name; eassumption. }
  destruct (get_branch run g s_r x2) as [x3 [b|e3]] eqn:E3.
  2:{ intros [= _ R]. apply relabel_name in R. subst e3.
      eapply get_branch_not_name; eassumption. }
  destruct (String.eqb b ""); discriminate.
Qed.

Lemma perform_not_name op (s s' : St) name :
  perform run op s = (s', Raise (NameError name)) -> False.
Proof.
  unfold perform, checkout, diff, apply, commit, get_sha, reset_hard, cmd,
    bind, ret, lift.
  repeat (step; [intros [= _ ->]; eapply failure_of_not_name; eassumption|]).
  destruct (bytes_to_str _) eqn:D;
    [|intros [= _ ->]; apply bytes_to_str_raise in D; discriminate].
  repeat (step; [intros [= _ ->]; eapply failure_of_not_name; eassumption|]).
  discriminate.
Qed.

Lemma try_body_not_name parser logger (s0 s1 : St) sq name :
  try_body run parser logger s0 = (s1, sq, Raise (NameError name)) -> False.
Proof.
  unfold try_body. rewrite GitEnv_init_eq.
  destruct (says_true _); [|discriminate].
  destruct (SquashOperation_init run _ _ _ _ _) as [s2 [op|e]] eqn:I.
  2:{ intros [= _ _ ->]. eapply SquashOperation_init_not_name; eassumption. }
  unfold bind. destruct (perform run op s2) as [s3 [[]|e]] eqn:P.
  - unfold info, log, bind, lift, print, ret.
    destruct (turned_on logger); discriminate.
  - intros [= _ _ ->]. eapply perform_not_name; eassumption.
Qed.

(** C10. Neither constructor lets a [CalledProcessError] out: the
    repository check swallows it and the operation's constructor turns
    it into a [ValueError].  So whenever the [try] body stops on a
    [CalledProcessError] the name [squash] is bound, and [__main__] never
    ends on a [NameError]. *)
Theorem revert_only_after_construction :
  (forall path (s s' : St) e rc stderr,
      GitEnv_init run path s = (s', Raise e) ->
      e <> CalledProcessError rc stderr)
  /\ (forall g t_r s_r custom (s s' : St) e rc stderr,
         SquashOperation_init run g t_r s_r custom s = (s', Raise e) ->
         e <> CalledProcessError rc stderr)
  /\ (forall parser logger (s0 s1 : St) sq rc stderr,
         try_body run parser logger s0
         = (s1, sq, Raise (CalledProcessError rc stderr)) ->
         exists op, sq = Some op)
  /\ (forall parser (s0 : St) name,
         snd (main run codec_error_text parser s0)
         <> Uncaught (NameError name)).
Proof.
  split; [|split; [|split]].
  - intros path s s' e rc stderr. rewrite GitEnv_init_eq.
    destruct (says_true _); intros [= _ <-]; discriminate.
  - intros g t_r s_r custom s s' e rc stderr.
    rewrite SquashOperation_init_eq.
    destruct (get_sha run g t_r s) as [x1 [t|e1]].
    2:{ intros [= _ <-]. apply relabel_not_process. }
    destruct (get_sha run g s_r x1) as [x2 [sh|e2]].
    2:{ intros [= _ <-]. apply relabel_not_process. }
    destruct (get_branch run g s_r x2) as [x3 [b|e3]].
    2:{ intros [= _ <-]. apply relabel_not_process. }
    destruct (String.eqb b ""); intros [= _ <-]; discriminate.
  - intros parser logger s0 s1 sq rc stderr T.
    destruct (try_body_process_error _ _ _ _ _ _ _ T)
      as (op & _ & _ & _ & E & _).
    exists op. exact E.
  - intros parser s0 name. unfold main.
    destruct (try_body run parser (mkLogger (verbose parser)) s0)
      as [[s1 sq] r] eqn:T.
    destruct r as [[]|e]; [discriminate|].
    destruct (is_ValueError e) eqn:V.
    { rewrite value_error_exit. discriminate. }
    destruct e; try discriminate;
      [|exfalso; eapply try_body_not_name; eassumption].
    destruct (try_body_process_error _ _ _ _ _ _ _ T)
      as (op & g & sa & sb & -> & _ & _ & P).
    unfold then_exit, bind.
    destruct (revert run op s1) as [s2 [[]|e]] eqn:R.
    + unfold error, log. destruct (turned_on _); [|discriminate].
      unfold bind, lift, print.
      destruct (bytes_to_str stderr) as [t|e] eqn:D; [discriminate|].
      apply bytes_to_str_raise in D. subst e. simpl. discriminate.
    + simpl. intros [= ->].
      revert R. unfold revert, checkout, reset_hard, cmd, bind, ret.
      rewrite check_output_eq.
      destruct (failure_of _) eqn:F1.
      * intros [= _ ->]. apply failure_of_not_name in F1. exact F1.
      * rewrite check_output_eq.
        destruct (failure_of (answer run (after run s1 _) _)) eqn:F2.
        -- intros [= _ ->]. apply failure_of_not_name in F2. exact F2.
        -- discriminate.
Qed.

(** *** The constructor and [revert], call by call *)

(** What the constructor raises and the calls it has made by then. *)
Lemma SquashOperation_init_trace g t_r s_r custom (s s' : St) r :
  SquashOperation_init run g t_r s_r custom s = (s', r) ->
  exists entries,
    calls s' = (calls s ++ entries)%list
    /\ map fst entries
       = firstn (List.length entries) (constructor_calls g t_r s_r)
    /\ match r with
       | Ret op =>
         List.length entries = 3%nat /\ all_succeeded entries = true
         /\ git op = g
       | Raise e =>
         (exists pre c res e0,
             entries = (pre ++ [(c, res)])%list
             /\ all_succeeded pre = true
             /\ failure_of res = Some e0
             /\ e = relabel t_r s_r e0)
         \/ (exists pre c res,
                entries = (pre ++ [(c, res)])%list
                /\ all_succeeded entries = true
                /\ bytes_to_str (stdout_of res) = Raise e)
         \/ (List.length entries = 3%nat
             /\ all_succeeded entries = true
             /\ e = ValueError (not_a_branch s_r))
       end.
Proof.
  rewrite SquashOperation_init_eq, get_sha_eq.
  destruct (failure_of (answer run s (sha_call g t_r))) as [e1|] eqn:F1.
  { intros [= <- <-]. eexists [_]. split; [reflexivity|].
    split; [reflexivity|]. left. exists [], (sha_call g t_r). eexists. exists e1.
    repeat split. exact F1. }
  destruct (bytes_to_str (stdout_of (answer run s (sha_call g t_r))))
    as [t|e1] eqn:D1.
  2:{ intros [= <- <-]. eexists [_]. split; [reflexivity|].
      split; [reflexivity|]. right. left.
      exists [], (sha_call g t_r). eexists.
      split; [reflexivity|]. split; [ok_all|].
      unfold answer in D1. rewrite D1. f_equal.
      apply bytes_to_str_raise in D1. subst e1. reflexivity. }
  rewrite get_sha_eq.
  destruct (failure_of (answer run _ (sha_call g s_r))) as [e2|] eqn:F2.
  { intros [= <- <-]. eexists [_; _]. unfold after; simpl.
    rewrite <- app_assoc. split; [reflexivity|].
    split; [reflexivity|]. left. eexists [_]. exists (sha_call g s_r).
    eexists. exists e2.
    split; [reflexivity|]. split; [ok_all|]. split; [exact F2|reflexivity]. }
  destruct (bytes_to_str (stdout_of (answer run _ (sha_call g s_r))))
    as [sh|e2] eqn:D2.
  2:{ intros [= <- <-]. eexists [_; _]. unfold after; simpl.
      rewrite <- app_assoc. split; [reflexivity|].
      split; [reflexivity|]. right. left.
      eexists [_]. exists (sha_call g s_r). eexists.
      split; [reflexivity|]. split; [ok_all|].
      unfold answer, after in D2; simpl in D2. rewrite D2. f_equal.
      apply bytes_to_str_raise in D2. subst e2. reflexivity. }
  rewrite get_branch_eq.
  destruct (failure_of (answer run _ (branch_call g s_r))) as [e3|] eqn:F3.
  { intros [= <- <-]. eexists [_; _; _]. unfold after; simpl.
    rewrite <- !app_assoc. split; [reflexivity|].
    split; [reflexivity|]. left. eexists [_; _]. exists (branch_call g s_r).
    eexists. exists e3.
    split; [reflexivity|]. split; [ok_all|]. split; [exact F3|reflexivity]. }
  destruct (bytes_to_str (stdout_of (answer run _ (branch_call g s_r))))
    as [b|e3] eqn:D3.
  2:{ intros [= <- <-]. eexists [_; _; _]. unfold after; simpl.
      rewrite <- !app_assoc. split; [reflexivity|].
      split; [reflexivity|]. right. left.
      eexists [_; _]. exists (branch_call g s_r). eexists.
      split; [reflexivity|]. split; [ok_all|].
      unfold answer, after in D3; simpl in D3. rewrite D3. f_equal.
      apply bytes_to_str_raise in D3. subst e3. reflexivity. }
  destruct (String.eqb _ "") eqn:B; intros [= <- <-];
    eexists [_; _; _]; unfold after; simpl; rewrite <- !app_assoc;
    (split; [reflexivity|]); (split; [reflexivity|]).
  - right. right. split; [reflexivity|]. split; [ok_all|reflexivity].
  - split; [reflexivity|]. split; [ok_all|reflexivity].
Qed.

Ltac trace_leaf K :=
  apply K; intros <-; eexists; eexists; eexists;
  split; [ unfold after; simpl; rewrite <- ?app_assoc; simpl; reflexivity
         | simpl; reflexivity ].

(** The calls of [perform] are an initial part of the squash sequence. *)
Lemma perform_trace op (s s' : St) r :
  perform run op s = (s', r) ->
  exists entries d n,
    calls s' = (calls s ++ entries)%list
    /\ map fst entries
       = firstn (List.length entries) (squash_calls op d n).
Proof.
  unfold perform, checkout, diff, apply, commit, get_sha, reset_hard, cmd,
    bind, ret, lift.
  assert (forall (a b : St) (x y : res unit) (P : Prop),
             (a = b -> P) -> (a, x) = (b, y) -> P) as K.
  { intros a b x y P H E. apply H. congruence. }
  step; [trace_leaf K|].
  step; [trace_leaf K|].
  step; [trace_leaf K|].
  step; [trace_leaf K|].
  step; [trace_leaf K|].
  destruct (bytes_to_str _) as [n|e] eqn:D; [|trace_leaf K].
  step; [trace_leaf K|].
  step; [trace_leaf K|].
  trace_leaf K.
  Unshelve. all: first [exact [] | exact ""].
Qed.

Lemma revert_streams op (s s' : St) r :
  revert run op s = (s', r) -> out s' = out s /\ err s' = err s.
Proof.
  unfold revert, checkout, reset_hard, cmd, bind, ret.
  repeat (step; [intros [= <- _]; split; reflexivity|]).
  intros [= <- _]; split; reflexivity.
Qed.

(** X6. [revert] makes the checkout of the source branch and then the
    hard reset to the identifier recorded at construction, each once and
    in that order, and prints nothing.  When it returns both calls
    succeeded; when it raises, the last call made is the one that failed
    and its exception is the one raised, so the reset is not attempted
    after a failed checkout. *)
Theorem revert_sequence op (s s' : St) r :
  revert run op s = (s', r) ->
  exists entries,
    calls s' = (calls s ++ entries)%list
    /\ map fst entries = firstn (List.length entries) (revert_calls op)
    /\ out s' = out s /\ err s' = err s
    /\ match r with
       | Ret _ =>
         List.length entries = 2%nat /\ all_succeeded entries = true
       | Raise e =>
         exists pre c res,
           entries = (pre ++ [(c, res)])%list
           /\ all_succeeded pre = true
           /\ failure_of res = Some e
       end.
Proof.
  unfold revert, checkout, reset_hard, cmd, bind, ret.
  step.
  { intros [= <- <-]. eexists [_]. unfold after; simpl.
    split; [reflexivity|]. split; [reflexivity|].
    split; [reflexivity|]. split; [reflexivity|].
    exists []. eexists. eexists. split; [reflexivity|].
    split; [reflexivity|]. exact F. }
  step.
  { intros [= <- <-]. eexists [_; _]. unfold after; simpl.
    rewrite <- app_assoc.
    split; [reflexivity|]. split; [reflexivity|].
    split; [reflexivity|]. split; [reflexivity|].
    eexists [_]. eexists. eexists. split; [reflexivity|].
    split; [ok_all|]. exact F0. }
  intros [= <- <-]. eexists [_; _]. unfold after; simpl.
  rewrite <- app_assoc.
  split; [reflexivity|]. split; [reflexivity|].
  split; [reflexivity|]. split; [reflexivity|].
  split; [reflexivity|]. ok_all.
Qed.

(** The logger starts no process. *)
Lemma log_calls (logger : Logger) msg to_stderr (s s' : St) r :
  log logger msg to_stderr s = (s', r) ->
  calls s' = calls s /\ world s' = world s.
Proof.
  unfold log, bind, lift, ret, print.
  destruct (turned_on logger); [|intros [= <- _]; split; reflexivity].
  destruct msg as [t|b].
  - destruct to_stderr; intros [= <- _]; split; reflexivity.
  - destruct (bytes_to_str b); [|intros [= <- _]; split; reflexivity].
    destruct to_stderr; intros [= <- _]; split; reflexivity.
Qed.

Lemma logged_err_calls on text (s : St) :
  calls (logged_err on text s) = calls s.
Proof. unfold logged_err. destruct on; reflexivity. Qed.

(** When the [try] body returns, both constructors and [perform] have. *)
Lemma try_body_returned parser logger (s0 s : St) sq u :
  try_body run parser logger s0 = (s, sq, Ret u) ->
  exists s1 g s2 op s3,
    GitEnv_init run (parser_repo_path parser) s0 = (s1, Ret g)
    /\ SquashOperation_init run g (target parser) (source parser)
         (custom_message parser) s1 = (s2, Ret op)
    /\ perform run op s2 = (s3, Ret tt)
    /\ sq = Some op
    /\ s = logged_out (turned_on logger) (success_message op) s3.
Proof.
  unfold try_body.
  destruct (GitEnv_init run (parser_repo_path parser) s0) as [s1 [g|e]] eqn:G;
    [|discriminate].
  destruct (SquashOperation_init run g _ _ _ s1) as [s2 [op|e]] eqn:I;
    [|discriminate].
  unfold bind. destruct (perform run op s2) as [s3 [[]|e]] eqn:P;
    [|discriminate].
  unfold info, log, bind, print, ret, logged_out.
  destruct (turned_on logger); intros [= <- <- _];
    exists s1, g, s2, op, s3; repeat split; assumption.
Qed.

(** The three ways [__main__] can go, by the state whose log of calls is
    the final one. *)
Lemma main_calls_cases parser (s0 : St) :
  let m := main run codec_error_text parser s0 in
  (exists s1 e,
      GitEnv_init run (parser_repo_path parser) s0 = (s1, Raise e)
      /\ calls (fst m) = calls s1)
  \/ (exists s1 g s2 e,
         GitEnv_init run (parser_repo_path parser) s0 = (s1, Ret g)
         /\ SquashOperation_init run g (target parser) (source parser)
              (custom_message parser) s1 = (s2, Raise e)
         /\ calls (fst m) = calls s2)
  \/ (exists s1 g s2 op s3 r,
         GitEnv_init run (parser_repo_path parser) s0 = (s1, Ret g)
         /\ SquashOperation_init run g (target parser) (source parser)
              (custom_message parser) s1 = (s2, Ret op)
         /\ perform run op s2 = (s3, r)
         /\ (calls (fst m) = calls s3
             \/ exists s4 rr,
                 revert run op s3 = (s4, rr)
                 /\ calls (fst m) = calls s4)).
Proof.
  intros m. subst m. unfold main, try_body.
  destruct (GitEnv_init run (parser_repo_path parser) s0) as [s1 [g|e]] eqn:G.
  2:{ left. exists s1, e. split; [reflexivity|].
      destruct (is_ValueError e).
      - rewrite value_error_exit. apply logged_err_calls.
      - destruct e; reflexivity. }
  right.
  destruct (SquashOperation_init run g _ _ _ s1) as [s2 [op|e]] eqn:I.
  2:{ left. exists s1, g, s2, e. split; [reflexivity|]. split; [exact I|].
      destruct (is_ValueError e).
      - rewrite value_error_exit. apply logged_err_calls.
      - destruct e; reflexivity. }
  right. unfold bind.
  destruct (perform run op s2) as [s3 [[]|e]] eqn:P.
  { exists s1, g, s2, op, s3, (Ret tt).
    split; [reflexivity|]. split; [exact I|]. split; [exact P|].
    left. unfold info, log, bind, print, ret. simpl.
    destruct (verbose parser); reflexivity. }
  exists s1, g, s2, op, s3, (Raise e).
  split; [reflexivity|]. split; [exact I|]. split; [exact P|].
  destruct (is_ValueError e) eqn:V.
  { left. rewrite value_error_exit. apply logged_err_calls. }
  destruct e; try (left; reflexivity).
  right. unfold then_exit.
  destruct (revert run op s3) as [s4 rr] eqn:R.
  exists s4, rr. split; [reflexivity|].
  destruct rr as [[]|e'].
  - destruct (error _ _ s4) as [s5 r5] eqn:L.
    apply log_calls in L as [L _]. destruct r5; exact L.
  - reflexivity.
Qed.



(** X5. An operation that was built keeps the handle and the target
    reference it was given; its identifiers and its branch name are what
    the three resolutions returned; its source branch is neither the
    empty string nor [HEAD], and its message is not the empty string. *)
Theorem constructed_operation g t_r s_r custom (s s' : St) op :
  SquashOperation_init run g t_r s_r custom s = (s', Ret op) ->
  git op = g
  /\ target_ref op = t_r
  /\ source_branch op <> ""
  /\ source_branch op <> "HEAD"
  /\ message op <> ""
  /\ exists s1 s2,
      get_sha run g t_r s = (s1, Ret (target_sha op))
      /\ get_sha run g s_r s1 = (s2, Ret (source_sha op))
      /\ get_branch run g s_r s2 = (s', Ret (source_branch op)).
Proof.
  rewrite SquashOperation_init_eq.
  destruct (get_sha run g t_r s) as [s1 [t|e]] eqn:E1; [|discriminate].
  destruct (get_sha run g s_r s1) as [s2 [sh|e]] eqn:E2; [|discriminate].
  destruct (get_branch run g s_r s2) as [s3 [b|e]] eqn:E3; [|discriminate].
  destruct (String.eqb_spec b "") as [|NE]; [discriminate|].
  intros [= <- <-]. simpl.
  split; [reflexivity|]. split; [reflexivity|]. split; [exact NE|].
  split.
  { revert E3. rewrite get_branch_eq.
    destruct (failure_of _); [discriminate|].
    destruct (bytes_to_str _) as [x|]; [|discriminate].
    destruct (String.eqb_spec x "HEAD") as [->|NH]; simpl.
    - intros [= _ <-]. congruence.
    - intros [= _ <-]. exact NH. }
  split.
  { destruct custom as [m|]; simpl.
    - destruct (String.eqb_spec m ""); [discriminate|assumption].
    - discriminate. }
  exists s1, s2. repeat split; assumption.
Qed.

(** *** Whole runs *)

Lemma GitEnv_init_handle path (s s1 : St) g :
  GitEnv_init run path s = (s1, Ret g) ->
  g = mkGitEnv path
  /\ says_true (answer run s (validity_call path)) = true.
Proof.
  rewrite GitEnv_init_eq. destruct (says_true _); [|discriminate].
  intros [= _ <-]. split; reflexivity.
Qed.

Lemma says_true_succeeded r : says_true r = true -> succeeded r = true.
Proof.
  unfold says_true. destruct (failure_of r) eqn:F; [discriminate|].
  intros _. apply failure_of_None, F.
Qed.


Lemma first_four (v : call * completed) e1 rest :
  List.length e1 = 3%nat -> firstn 4 (v :: e1 ++ rest)%list = v :: e1.
Proof.
  intros L. destruct e1 as [|a [|b [|c [|d e1]]]]; try discriminate.
  reflexivity.
Qed.

(** X9. The first four calls of a run are [rev-parse] queries, none of
    them a checkout, apply, commit or reset; a fifth call is made only
    when those four succeeded and both constructors returned. *)
Theorem mutation_only_after_construction parser (s0 : St) :
  exists entries,
    calls (fst (main run codec_error_text parser s0))
    = (calls s0 ++ entries)%list
    /\ forallb is_rev_parse (map fst (firstn 4 entries)) = true
    /\ existsb mutating (map fst (firstn 4 entries)) = false
    /\ ((4 < List.length entries)%nat ->
        all_succeeded (firstn 4 entries) = true
        /\ exists s1 g s2 op,
            GitEnv_init run (parser_repo_path parser) s0 = (s1, Ret g)
            /\ SquashOperation_init run g (target parser) (source parser)
                 (custom_message parser) s1 = (s2, Ret op)).
Proof.
  set (path := parser_repo_path parser).
  set (v := (validity_call path, answer run s0 (validity_call path))).
  assert (forall s1 r, GitEnv_init run path s0 = (s1, r) ->
            calls s1 = (calls s0 ++ [v])%list) as First.
  { intros s1 r. rewrite GitEnv_init_eq. intros [= <- _]. reflexivity. }
  assert (forall g s1 s2 r,
            SquashOperation_init run g (target parser) (source parser)
              (custom_message parser) s1 = (s2, r) ->
            exists e1,
              calls s2 = (calls s1 ++ e1)%list
              /\ (List.length e1 <= 3)%nat
              /\ forallb is_rev_parse (map fst e1) = true
              /\ existsb mutating (map fst e1) = false
              /\ (forall op, r = Ret op ->
                    List.length e1 = 3%nat /\ all_succeeded e1 = true))
    as Init.
  { intros g s1 s2 r I.
    destruct (SquashOperation_init_trace _ _ _ _ _ _ _ I)
      as (e1 & C1 & M1 & R1).
    destruct (SquashOperation_init_calls _ _ _ _ _ _ _ I)
      as (e1' & C1' & A & Mu & _).
    assert (e1' = e1) as ->
      by (apply (app_inv_head (calls s1)); congruence).
    exists e1. split; [exact C1|].
    split; [apply (prefix_calls is_rev_parse _ _ M1 eq_refl)|].
    split; [exact A|]. split; [exact Mu|].
    intros op ->. destruct R1 as (L & S & _). split; assumption. }
  destruct (main_calls_cases parser s0)
    as [(s1 & e & G & C)
       |[(s1 & g & s2 & e & G & I & C)
        |(s1 & g & s2 & op & s3 & r & G & I & P & C)]].
  - exists [v]. rewrite C, (First _ _ G).
    split; [reflexivity|]. split; [reflexivity|]. split; [reflexivity|].
    simpl. lia.
  - destruct (Init _ _ _ _ I) as (e1 & C1 & L1 & A1 & M1 & _).
    exists (v :: e1).
    rewrite C, C1, (First _ _ G), <- app_assoc.
    split; [reflexivity|].
    rewrite firstn_all2 by (simpl; lia).
    simpl. rewrite A1, M1.
    split; [reflexivity|]. split; [reflexivity|]. lia.
  - destruct (Init _ _ _ _ I) as (e1 & C1 & _ & A1 & M1 & R1).
    destruct (R1 op eq_refl) as [L1 S1].
    destruct (GitEnv_init_handle _ _ _ _ G) as [_ Sv].
    apply says_true_succeeded in Sv.
    assert (exists rest,
               calls (fst (main run codec_error_text parser s0))
               = (calls s0 ++ v :: e1 ++ rest)%list) as [rest C'].
    { destruct (perform_trace _ _ _ _ P) as (e2 & d & n & C2 & _).
      destruct C as [C | (s4 & rr & R & C)].
      - exists e2. rewrite C, C2, C1, (First _ _ G), <- !app_assoc.
        reflexivity.
      - destruct (revert_calls_made _ _ _ _ R) as (e3 & C3 & _).
        exists (e2 ++ e3)%list.
        rewrite C, C3, C2, C1, (First _ _ G), <- !app_assoc.
        reflexivity. }
    exists (v :: e1 ++ rest)%list. split; [exact C'|].
    rewrite (first_four _ _ _ L1). simpl. rewrite A1, M1.
    split; [reflexivity|]. split; [reflexivity|].
    intros _. split.
    + unfold all_succeeded in *. subst v path. simpl.
      rewrite Sv. exact S1.
    + exists s1, g, s2, op. split; assumption.
Qed.



(** A failed [try] body has printed nothing. *)
Lemma try_body_raise_streams parser logger (s0 s : St) sq e :
  try_body run parser logger s0 = (s, sq, Raise e) ->
  out s = out s0 /\ err s = err s0.
Proof.
  unfold try_body. rewrite GitEnv_init_eq.
  destruct (says_true _); [|intros [= <- _ _]; split; reflexivity].
  destruct (SquashOperation_init run _ _ _ _ _) as [s2 [op|e2]] eqn:I;
    destruct (SquashOperation_init_calls _ _ _ _ _ _ _ I)
      as (_ & _ & _ & _ & O2 & E2);
    unfold after in O2, E2; simpl in O2, E2.
  2:{ intros [= <- _ _]. split; assumption. }
  unfold bind. destruct (perform run op s2) as [s3 [[]|e3]] eqn:P.
  - unfold info, log, bind, print, ret.
    destruct (turned_on logger); discriminate.
  - destruct (perform_streams _ _ _ _ P) as [O3 E3].
    intros [= <- _ _]. split; congruence.
Qed.

Lemma main_streams parser (s0 : St) :
  let m := main run codec_error_text parser s0 in
  exists lo le,
    out (fst m) = (out s0 ++ lo)%list
    /\ err (fst m) = (err s0 ++ le)%list
    /\ (List.length lo + List.length le <= 1)%nat
    /\ (snd m <> Exit 0 -> lo = [])
    /\ (snd m = Exit 0 -> le = [])
    /\ (verbose parser = false -> lo = [] /\ le = []).
Proof.
  intros m. subst m. unfold main.
  destruct (try_body run parser (mkLogger (verbose parser)) s0)
    as [[s sq] r] eqn:T.
  destruct r as [u|e].
  - destruct (try_body_returned _ _ _ _ _ _ T)
      as (s1 & g & s2 & op & s3 & G & I & P & _ & ->).
    simpl turned_on.
    destruct (perform_streams _ _ _ _ P) as [O3 E3].
    destruct (SquashOperation_init_calls _ _ _ _ _ _ _ I)
      as (_ & _ & _ & _ & O2 & E2).
    assert (out s1 = out s0 /\ err s1 = err s0) as [O1 E1].
    { rewrite GitEnv_init_eq in G. inversion G. split; reflexivity. }
    exists (if verbose parser then [success_message op] else []), [].
    unfold logged_out. simpl.
    destruct (verbose parser); simpl; rewrite ?app_nil_r, ?O3, ?O2, ?O1,
      ?E3, ?E2, ?E1.
    + repeat split; try reflexivity; try lia; try discriminate; congruence.
    + repeat split; try reflexivity; try lia; try discriminate; congruence.
  - destruct (try_body_raise_streams _ _ _ _ _ _ T) as [O E].
    destruct (is_ValueError e) eqn:V.
    { rewrite value_error_exit. simpl turned_on. unfold logged_err.
      exists [], (if verbose parser then [exn_str codec_error_text e] else []).
      destruct (verbose parser); simpl; rewrite ?app_nil_r, ?O, ?E;
        repeat split; try reflexivity; try lia; try discriminate. }
    destruct e; try (simpl; exists [], []; rewrite !app_nil_r;
                     repeat split; try assumption; simpl; lia).
    destruct (try_body_process_error _ _ _ _ _ _ _ T)
      as (op & g & sa & sb & -> & _ & _ & P).
    apply perform_process_error in P.
    unfold then_exit, bind.
    destruct (revert run op s) as [s4 [[]|e']] eqn:R;
      destruct (revert_streams _ _ _ _ R) as [O4 E4].
    2:{ simpl. exists [], []. rewrite !app_nil_r.
        repeat split; try congruence. simpl; lia. }
    unfold error, log. simpl turned_on.
    destruct (verbose parser).
    2:{ simpl. exists [], []. rewrite !app_nil_r.
        repeat split; try congruence. simpl; lia. }
    unfold bind, lift, print.
    destruct (bytes_to_str stderr) as [t|e'].
    + simpl. exists [], [t]. rewrite !app_nil_r.
      repeat split; try congruence; try (simpl; lia).
    + simpl. exists [], []. rewrite !app_nil_r.
      repeat split; try congruence. simpl; lia.
Qed.


(** X12. A run prints at most one message.  Standard output is written
    only by a run that exits with 0, and such a run writes nothing on
    standard error. *)
Theorem one_message_per_run parser (s0 : St) :
  let m := main run codec_error_text parser s0 in
  exists lo le,
    out (fst m) = (out s0 ++ lo)%list
    /\ err (fst m) = (err s0 ++ le)%list
    /\ (List.length lo + List.length le <= 1)%nat
    /\ (snd m <> Exit 0 -> lo = [])
    /\ (snd m = Exit 0 -> le = []).
Proof.
  intros m.
  destruct (main_streams parser s0) as (lo & le & O & E & L & A & B & _).
  exists lo, le. repeat split; assumption.
Qed.



(** *** The adapter and the logger *)

(** X3. [get_branch] makes one call, [rev-parse --abbrev-ref] of the
    reference.  What it returns is never [HEAD]: it is the empty string
    exactly when the tool printed [HEAD] or nothing but whitespace, and
    the decoded, stripped output otherwise. *)
Theorem get_branch_result g x (s s' : St) r :
  get_branch run g x s = (s', r) ->
  s' = after run s (branch_call g x)
  /\ forall b, r = Ret b ->
       b <> "HEAD"
       /\ exists t,
           failure_of (answer run s (branch_call g x)) = None
           /\ bytes_to_str (stdout_of (answer run s (branch_call g x))) = Ret t
           /\ (b = "" <-> t = "HEAD" \/ t = "")
           /\ (b <> "" -> b = t).
Proof.
  rewrite get_branch_eq. intros [= <- <-]. split; [reflexivity|].
  intros b.
  destruct (failure_of _); [discriminate|].
  destruct (bytes_to_str _) as [t|]; [|discriminate].
  destruct (String.eqb_spec t "HEAD") as [->|NH]; simpl; intros [= <-].
  - split; [discriminate|]. exists "HEAD".
    repeat split; tauto.
  - split; [exact NH|]. exists t. repeat split; tauto.
Qed.

(** X7. [Logger.log] starts no process.  A message goes to the one stream
    selected and leaves the other as it was; a logger that is turned off
    changes nothing and does not even decode the message; a [str] message
    is printed as it is; and [log] raises only when it is turned on and
    is given bytes that do not decode, having printed nothing. *)
Theorem log_behaviour (logger : Logger) msg to_stderr (s s' : St) r :
  log logger msg to_stderr s = (s', r) ->
  calls s' = calls s /\ world s' = world s
  /\ (to_stderr = true -> out s' = out s)
  /\ (to_stderr = false -> err s' = err s)
  /\ (turned_on logger = false -> s' = s /\ r = Ret tt)
  /\ (forall e, r = Raise e ->
        s' = s /\ turned_on logger = true
        /\ exists b, msg = inr b /\ e = UnicodeDecodeError b)
  /\ (forall t, turned_on logger = true -> msg = inl t ->
        r = Ret tt
        /\ (if to_stderr then err s' else out s')
           = ((if to_stderr then err s else out s) ++ [t])%list).
Proof.
  unfold log, bind, lift, ret, print.
  destruct (turned_on logger).
  2:{ intros [= <- <-]. repeat split; intros; try reflexivity; discriminate. }
  destruct msg as [t|b].
  - destruct to_stderr; intros [= <- <-]; simpl;
      repeat split; intros; try reflexivity; try discriminate;
      match goal with
      | H : inl _ = inl _ |- _ => injection H as <-; reflexivity
      end.
  - destruct (bytes_to_str b) eqn:D.
    + destruct to_stderr; intros [= <- <-]; simpl;
        repeat split; intros; try reflexivity; discriminate.
    + intros [= <- <-]. apply bytes_to_str_raise in D. subst e.
      repeat split; intros; try reflexivity; try discriminate.
      exists b. split; [reflexivity|congruence].
Qed.

End ScriptFacts.

(** * The output of the model, read back by the script *)

Lemma between_spec lo hi b :
  between lo hi b = true <-> (lo <= Byte.to_N b /\ Byte.to_N b <= hi)%N.
Proof.
  unfold between. rewrite andb_true_iff, !N.leb_le. reflexivity.
Qed.

Ltac bounds H :=
  unfold ws1, ws2, ws3 in H;
  repeat (rewrite orb_true_iff in H || rewrite andb_true_iff in H
          || rewrite between_spec in H).

Lemma ws1_bound b : ws1 b = true -> (Byte.to_N b <= 32)%N.
Proof. intros H. bounds H. lia. Qed.

Lemma ws2_first b0 b1 : ws2 b0 b1 = true -> (194 <= Byte.to_N b0)%N.
Proof. intros H. bounds H. lia. Qed.

Lemma ws2_last b0 b1 : ws2 b0 b1 = true -> (128 <= Byte.to_N b1)%N.
Proof. intros H. bounds H. lia. Qed.

Lemma ws3_first b0 b1 b2 : ws3 b0 b1 b2 = true -> (225 <= Byte.to_N b0)%N.
Proof. intros H. bounds H. lia. Qed.

Lemma ws3_last b0 b1 b2 : ws3 b0 b1 b2 = true -> (128 <= Byte.to_N b2)%N.
Proof. intros H. bounds H. lia. Qed.

(** A printable character other than the space is no part of any
    whitespace, at either end. *)
Lemma lstrip_plain b l :
  between 33 126 b = true -> lstrip (b :: l) = b :: l.
Proof.
  intros P. apply between_spec in P. simpl.
  destruct (ws1 b) eqn:W1; [apply ws1_bound in W1; lia|].
  destruct l as [|b1 l]; [reflexivity|].
  destruct (ws2 b b1) eqn:W2; [apply ws2_first in W2; lia|].
  destruct l as [|b2 l]; [reflexivity|].
  destruct (ws3 b b1 b2) eqn:W3; [apply ws3_first in W3; lia|].
  reflexivity.
Qed.

Lemma lstrip_rev_plain b l :
  between 33 126 b = true -> lstrip_rev (b :: l) = b :: l.
Proof.
  intros P. apply between_spec in P. simpl.
  destruct (ws1 b) eqn:W1; [apply ws1_bound in W1; lia|].
  destruct l as [|b1 l]; [reflexivity|].
  destruct (ws2 b1 b) eqn:W2; [apply ws2_last in W2; lia|].
  destruct l as [|b2 l]; [reflexivity|].
  destruct (ws3 b2 b1 b) eqn:W3; [apply ws3_last in W3; lia|].
  reflexivity.
Qed.






(** ** Identifiers *)






(** ** What [bytes_to_str] keeps and what it removes *)

Lemma utf8_valid_ascii (l : bytes) : ascii_only l = true -> utf8_valid l = true.
Proof.
  induction l as [|b l IH]; simpl; [reflexivity|].
  rewrite andb_true_iff. intros [-> Q]. apply IH, Q.
Qed.

Lemma ws1_ascii b : ws1 b = true -> between 0 127 b = true.
Proof. intros H. bounds H. apply between_spec. lia. Qed.

Lemma lstrip_ws1 (pre l : bytes) :
  forallb ws1 pre = true -> lstrip (pre ++ l)%list = lstrip l.
Proof.
  induction pre as [|b pre IH]; simpl; [reflexivity|].
  rewrite andb_true_iff. intros [-> Q]. apply IH, Q.
Qed.

Lemma lstrip_rev_ws1 (pre l : bytes) :
  forallb ws1 pre = true -> lstrip_rev (pre ++ l)%list = lstrip_rev l.
Proof.
  induction pre as [|b pre IH]; simpl; [reflexivity|].
  rewrite andb_true_iff. intros [-> Q]. apply IH, Q.
Qed.

Lemma forallb_rev {A} (f : A -> bool) l :
  forallb f l = true -> forallb f (rev l) = true.
Proof.
  rewrite !forallb_forall. intros H x Hx. apply H, in_rev, Hx.
Qed.

Lemma rev_last (l : bytes) d :
  l <> [] -> exists m, rev l = last l d :: m.
Proof.
  destruct l as [|x k] using rev_ind; [congruence|]. intros _.
  rewrite rev_app_distr, last_last. eexists; reflexivity.
Qed.

(** X1. [bytes_to_str] gives back a text the tool printed between
    whitespace: for an ASCII text that is empty or begins and ends with a
    printable character other than the space, surrounded by any number of
    ASCII whitespace characters (spaces, tabs, line ends), the result is
    that text, inner spaces included. *)
Theorem bytes_to_str_trims (pre l post : bytes) :
  forallb ws1 pre = true ->
  forallb ws1 post = true ->
  ascii_only l = true ->
  trimmed l = true ->
  bytes_to_str (pre ++ l ++ post)%list = Ret (string_of_list_byte l).
Proof.
  intros Hpre Hpost A T. unfold bytes_to_str.
  assert (utf8_valid (pre ++ l ++ post)%list = true) as ->.
  { apply utf8_valid_ascii. unfold ascii_only in *.
    rewrite !forallb_app, A. simpl. rewrite andb_true_iff. split.
    - apply forallb_forall. intros x Hx. apply ws1_ascii.
      rewrite forallb_forall in Hpre. apply Hpre, Hx.
    - apply forallb_forall. intros x Hx. apply ws1_ascii.
      rewrite forallb_forall in Hpost. apply Hpost, Hx. }
  f_equal. f_equal. unfold strip. rewrite (lstrip_ws1 _ _ Hpre).
  destruct l as [|b l].
  - simpl. unfold rstrip.
    assert (forall p, forallb ws1 p = true -> lstrip p = []) as E.
    { intros p Hp. rewrite <- (app_nil_r p), (lstrip_ws1 _ _ Hp). reflexivity. }
    rewrite (E _ Hpost). reflexivity.
  - change (between 33 126 b && between 33 126 (last (b :: l) b) = true)
      in T.
    apply andb_true_iff in T as [Tb Tl].
    change ((b :: l) ++ post)%list with (b :: (l ++ post))%list.
    rewrite (lstrip_plain b _ Tb). unfold rstrip.
    change (b :: (l ++ post))%list with ((b :: l) ++ post)%list.
    rewrite rev_app_distr, (lstrip_rev_ws1 _ _ (forallb_rev _ _ Hpost)).
    destruct (rev_last (b :: l) b) as [m E]; [discriminate|].
    rewrite E, (lstrip_rev_plain _ _ Tl), <- E. apply rev_involutive.
Qed.

(** What [lstrip] removes is a prefix made of whitespace only, and
    nothing is left to remove afterwards. *)
Lemma lstrip_split n : forall l : bytes,
  (List.length l <= n)%nat ->
  exists a, l = (a ++ lstrip l)%list /\ lstrip a = []
            /\ lstrip (lstrip l) = lstrip l.
Proof.
  induction n as [|n IH]; intros l L.
  { destruct l; [exists []; repeat split | simpl in L; lia]. }
  destruct l as [|b0 r0]; [exists []; repeat split|].
  remember (lstrip (b0 :: r0)) as s eqn:S. simpl in S, L.
  destruct (ws1 b0) eqn:W1.
  { subst s. destruct (IH r0) as (a & E & Ea & I); [lia|]. exists (b0 :: a).
    split; [simpl; congruence|]. split; [simpl; rewrite W1; exact Ea|exact I]. }
  destruct r0 as [|b1 r1].
  { subst s. exists []. repeat split. simpl. rewrite W1. reflexivity. }
  simpl in L.
  destruct (ws2 b0 b1) eqn:W2.
  { subst s. destruct (IH r1) as (a & E & Ea & I); [lia|]. exists (b0 :: b1 :: a).
    split; [simpl; congruence|].
    split; [simpl; rewrite W1, W2; exact Ea|exact I]. }
  destruct r1 as [|b2 r2].
  { subst s. exists []. repeat split. simpl. rewrite W1, W2. reflexivity. }
  simpl in L.
  destruct (ws3 b0 b1 b2) eqn:W3.
  { subst s. destruct (IH r2) as (a & E & Ea & I); [lia|]. exists (b0 :: b1 :: b2 :: a).
    split; [simpl; congruence|].
    split; [simpl; rewrite W1, W2, W3; exact Ea|exact I]. }
  subst s. exists []. repeat split. simpl. rewrite W1, W2, W3. reflexivity.
Qed.

Lemma lstrip_rev_split n : forall l : bytes,
  (List.length l <= n)%nat ->
  exists a, l = (a ++ lstrip_rev l)%list /\ lstrip_rev a = []
            /\ lstrip_rev (lstrip_rev l) = lstrip_rev l.
Proof.
  induction n as [|n IH]; intros l L.
  { destruct l; [exists []; repeat split | simpl in L; lia]. }
  destruct l as [|b0 r0]; [exists []; repeat split|].
  remember (lstrip_rev (b0 :: r0)) as s eqn:S. simpl in S, L.
  destruct (ws1 b0) eqn:W1.
  { subst s. destruct (IH r0) as (a & E & Ea & I); [lia|]. exists (b0 :: a).
    split; [simpl; congruence|]. split; [simpl; rewrite W1; exact Ea|exact I]. }
  destruct r0 as [|b1 r1].
  { subst s. exists []. repeat split. simpl. rewrite W1. reflexivity. }
  simpl in L.
  destruct (ws2 b1 b0) eqn:W2.
  { subst s. destruct (IH r1) as (a & E & Ea & I); [lia|]. exists (b0 :: b1 :: a).
    split; [simpl; congruence|].
    split; [simpl; rewrite W1, W2; exact Ea|exact I]. }
  destruct r1 as [|b2 r2].
  { subst s. exists []. repeat split. simpl. rewrite W1, W2. reflexivity. }
  simpl in L.
  destruct (ws3 b2 b1 b0) eqn:W3.
  { subst s. destruct (IH r2) as (a & E & Ea & I); [lia|]. exists (b0 :: b1 :: b2 :: a).
    split; [simpl; congruence|].
    split; [simpl; rewrite W1, W2, W3; exact Ea|exact I]. }
  subst s. exists []. repeat split. simpl. rewrite W1, W2, W3. reflexivity.
Qed.

Lemma lstrip_length (l : bytes) : (List.length (lstrip l) <= List.length l)%nat.
Proof.
  destruct (lstrip_split (List.length l) l (le_n _)) as (a & E & _).
  rewrite E at 2. rewrite length_app. lia.
Qed.

(** A text with no whitespace in front keeps that when it is cut at the
    end. *)
Lemma lstrip_prefix_fixed (m b : bytes) :
  lstrip (m ++ b)%list = (m ++ b)%list -> lstrip m = m.
Proof.
  assert (forall (x y : bytes), lstrip x = y ->
            (List.length x < List.length y)%nat -> False) as K.
  { intros x y <- H. pose proof (lstrip_length x). lia. }
  destruct m as [|b0 [|b1 [|b2 m]]]; simpl; try reflexivity.
  - destruct (ws1 b0); [|reflexivity].
    intros H. exfalso. apply (K b _ H). simpl. lia.
  - destruct (ws1 b0).
    { intros H. exfalso. apply (K (b1 :: b) _ H). simpl. lia. }
    destruct (ws2 b0 b1); [|reflexivity].
    intros H. exfalso. apply (K b _ H). simpl. lia.
  - destruct (ws1 b0).
    { intros H. exfalso. apply (K (b1 :: b2 :: m ++ b)%list _ H). simpl. lia. }
    destruct (ws2 b0 b1).
    { intros H. exfalso. apply (K (b2 :: m ++ b)%list _ H). simpl. lia. }
    destruct (ws3 b0 b1 b2); [|reflexivity].
    intros H. exfalso. apply (K (m ++ b)%list _ H). simpl. lia.
Qed.

(** X2. [bytes_to_str] removes bytes at the two ends only and changes
    none: when it returns, the output is the encoded result between a
    prefix and a suffix made of whitespace only, and stripping the result
    again changes nothing. *)
Theorem bytes_to_str_segment (output : bytes) (t : str) :
  bytes_to_str output = Ret t ->
  exists a b,
    output = (a ++ encode t ++ b)%list
    /\ lstrip a = [] /\ rstrip b = []
    /\ strip (encode t) = encode t.
Proof.
  unfold bytes_to_str. destruct (utf8_valid output); [|discriminate].
  intros [= <-]. unfold encode. rewrite list_byte_of_string_of_list_byte.
  destruct (lstrip_split _ output (le_n _)) as (a & Ea & La & Ia).
  destruct (lstrip_rev_split _ (rev (lstrip output)) (le_n _))
    as (c & Ec & Lc & Ic).
  assert (lstrip output = (strip output ++ rev c)%list) as Es.
  { unfold strip, rstrip. rewrite <- rev_app_distr, <- Ec.
    symmetry. apply rev_involutive. }
  exists a, (rev c). split; [rewrite <- Es; exact Ea|].
  split; [exact La|]. split.
  { unfold rstrip. rewrite rev_involutive, Lc. reflexivity. }
  assert (lstrip (strip output) = strip output) as Ls.
  { apply (lstrip_prefix_fixed _ (rev c)). rewrite <- Es. exact Ia. }
  unfold strip at 1. rewrite Ls. unfold strip, rstrip.
  rewrite rev_involutive, Ic. reflexivity.
Qed.

(** * The model of the tool *)

Module GitFacts.
Import Git.




(** ** Resolving identifiers *)




(** ** Well-formed repositories *)

Lemma branch_name_ok_spec b :
  branch_name_ok b = true ->
  plain b = true /\ is_sha b = false /\ b <> "HEAD".
Proof.
  unfold branch_name_ok. rewrite !andb_true_iff, !negb_true_iff.
  intros [[P S] H]. repeat split; try assumption.
  intros ->. discriminate.
Qed.







(** ** Patches *)





(** ** One command of the model *)



(** ** What a command that succeeded has done *)









Local Abbreviation St := (state World).
Local Abbreviation repo_of s := (repo (world s)).






(** ** The steps of [perform] and [revert] on the model *)












Lemma branch_name_not_empty b : branch_name_ok b = true -> b <> "".
Proof.
  intros H ->. apply branch_name_ok_spec in H as (_ & S & _). discriminate.
Qed.




(** ** What [perform] does to the repository *)


(** ** What [revert] does after a failed [perform] *)




End GitFacts.

(** * Concrete runs *)

(** The squash sequence on the scripted run where everything succeeds. *)
Lemma perform_sequence_witness :
  exists entries d n,
    calls (Scripted.performed Scripted.all_goes_well)
    = (calls (Scripted.built None Scripted.all_goes_well) ++ entries)%list
    /\ map fst entries = squash_calls Scripted.the_squash d n
    /\ all_succeeded entries = true.
Proof.
  destruct (perform_sequence Scripted.World Scripted.run Scripted.the_squash
              (Scripted.built None Scripted.all_goes_well)
              (Scripted.performed Scripted.all_goes_well) (Ret tt) eq_refl)
    as (entries & d & n & C & M & _ & _ & L & A).
  exists entries, d, n. rewrite L in M. split; [exact C|].
  split; [exact M|exact A].
Defined.

Lemma unresolvable_reference_rejected_witness :
  main Scripted.run Scripted.no_text Scripted.squash_main
    (Scripted.start Scripted.unknown_target)
  = (logged_err true "main and HEAD must be both valid git references"
       (Scripted.built None Scripted.unknown_target),
     Exit 1).
Proof.
  destruct (unresolvable_reference_rejected Scripted.World Scripted.run
              Scripted.no_text Scripted.squash_main Scripted.the_env
              (Scripted.start Scripted.unknown_target)
              (Scripted.checked Scripted.unknown_target) eq_refl)
    as (s' & entries & I & _ & _ & _ & Mn).
  - left. eexists. eexists. eexists. reflexivity.
  - rewrite Mn. f_equal. f_equal.
    change s' with (fst (s', @Raise SquashOperation
      (ValueError (invalid_references (target Scripted.squash_main)
                     (source Scripted.squash_main))))).
    rewrite <- I. reflexivity.
Defined.

Lemma detached_source_rejected_witness :
  get_branch Scripted.run Scripted.the_env "HEAD"
    (after Scripted.run
       (after Scripted.run (Scripted.checked Scripted.detached_source)
          (sha_call Scripted.the_env "main"))
       (sha_call Scripted.the_env "HEAD"))
  = (Scripted.built None Scripted.detached_source, Ret "")
  /\ main Scripted.run Scripted.no_text Scripted.squash_main
       (Scripted.start Scripted.detached_source)
     = (logged_err true "HEAD must be a branch"
          (Scripted.built None Scripted.detached_source),
        Exit 1).
Proof.
  split; [reflexivity|].
  exact (proj1 (proj2
    (detached_source_rejected Scripted.World Scripted.run Scripted.no_text
       Scripted.squash_main Scripted.the_env
       (Scripted.start Scripted.detached_source)
       (Scripted.checked Scripted.detached_source)
       _ _ (Scripted.built None Scripted.detached_source)
       "aaa111" "bbb222" eq_refl eq_refl eq_refl eq_refl))).
Defined.

Lemma effective_message_witness :
  message Scripted.the_squash
  = "Squashed " +++ source_branch Scripted.the_squash
  /\ exists op,
      SquashOperation_init Scripted.run Scripted.the_env "main" "HEAD"
        (Some "One commit") (Scripted.checked Scripted.all_goes_well)
      = (Scripted.built (Some "One commit") Scripted.all_goes_well, Ret op)
      /\ message op = "One commit".
Proof.
  split.
  - exact (proj1
      (effective_message Scripted.World Scripted.run Scripted.the_env
         "main" "HEAD" None (Scripted.checked Scripted.all_goes_well)
         (Scripted.built None Scripted.all_goes_well) Scripted.the_squash
         eq_refl) eq_refl).
  - eexists. split; [reflexivity|].
    refine (proj1 (proj2
      (effective_message Scripted.World Scripted.run Scripted.the_env
         "main" "HEAD" (Some "One commit")
         (Scripted.checked Scripted.all_goes_well)
         (Scripted.built (Some "One commit") Scripted.all_goes_well)
         _ eq_refl))
      "One commit" eq_refl _).
    discriminate.
Defined.

(** With [-m ""] a custom message is given, and the default is used. *)
Lemma empty_custom_message_ignored :
  exists op,
    SquashOperation_init Scripted.run Scripted.the_env "main" "HEAD" (Some "")
      (Scripted.checked Scripted.all_goes_well)
    = (Scripted.built (Some "") Scripted.all_goes_well, Ret op)
    /\ message op = "Squashed feature"
    /\ message op <> "".
Proof.
  exists Scripted.the_squash. split; [reflexivity|].
  split; [reflexivity|discriminate].
Qed.



Lemma success_report_witness :
  out (fst (main Scripted.run Scripted.no_text Scripted.squash_main
              (Scripted.start Scripted.all_goes_well)))
  = ["Successfully squashed feature onto main" +++ String "010" ""
     +++ "To revert changes call: git reset --hard bbb222"].
Proof.
  destruct (success_report Scripted.World Scripted.run Scripted.no_text
              Scripted.squash_main Scripted.the_env
              (Scripted.start Scripted.all_goes_well)
              (Scripted.checked Scripted.all_goes_well)
              (Scripted.built None Scripted.all_goes_well)
              (Scripted.performed Scripted.all_goes_well)
              Scripted.the_squash eq_refl eq_refl eq_refl)
    as (Mn & O & _).
  rewrite Mn. exact O.
Defined.

Lemma repository_validity_check_witness :
  is_repo_valid Scripted.run Scripted.the_env
    (Scripted.start Scripted.not_a_repository)
  = (Scripted.checked Scripted.not_a_repository, Ret false)
  /\ main Scripted.run Scripted.no_text Scripted.squash_main
       (Scripted.start Scripted.not_a_repository)
     = (logged_err true "/repo is not a valid git repository path"
          (Scripted.checked Scripted.not_a_repository), Exit 1).
Proof.
  destruct (repository_validity_check Scripted.World Scripted.run
              Scripted.no_text "/repo"
              (Scripted.start Scripted.not_a_repository))
    as (V & _ & _ & R).
  split; [exact V|].
  destruct (R eq_refl) as [_ Mn].
  exact (proj1 (Mn Scripted.squash_main eq_refl)).
Defined.

Lemma revert_only_after_construction_witness :
  exists op,
    snd (fst (try_body Scripted.run Scripted.squash_main (mkLogger true)
                (Scripted.start Scripted.patch_conflict)))
    = Some op.
Proof.
  destruct (revert_only_after_construction Scripted.World Scripted.run
              Scripted.no_text) as (_ & _ & T & _).
  destruct (T Scripted.squash_main (mkLogger true)
              (Scripted.start Scripted.patch_conflict)
              (Scripted.performed Scripted.patch_conflict)
              (Some Scripted.the_squash) 1%Z (encode "error: patch failed")
              eq_refl) as [op E].
  exists op. exact E.
Defined.

(** ** On the model *)




(** ** More runs of the script *)


Lemma constructed_operation_witness :
  source_branch Scripted.the_squash <> ""
  /\ source_branch Scripted.the_squash <> "HEAD"
  /\ message Scripted.the_squash <> "".
Proof.
  destruct (constructed_operation Scripted.World Scripted.run
              Scripted.the_env "main" "HEAD" None
              (Scripted.checked Scripted.all_goes_well)
              (Scripted.built None Scripted.all_goes_well)
              Scripted.the_squash eq_refl)
    as (_ & _ & B & H & M & _).
  split; [exact B|]. split; [exact H|exact M].
Defined.

Lemma revert_sequence_witness :
  exists entries,
    calls (Scripted.reverted Scripted.patch_conflict)
    = (calls (Scripted.performed Scripted.patch_conflict) ++ entries)%list
    /\ map fst entries = revert_calls Scripted.the_squash
    /\ all_succeeded entries = true.
Proof.
  destruct (revert_sequence Scripted.World Scripted.run Scripted.the_squash
              (Scripted.performed Scripted.patch_conflict)
              (Scripted.reverted Scripted.patch_conflict) (Ret tt) eq_refl)
    as (entries & C & M & _ & _ & L & A).
  exists entries. rewrite L in M. split; [exact C|]. split; [exact M|exact A].
Defined.


Lemma mutation_only_after_construction_witness :
  exists s1 g s2 op,
    GitEnv_init Scripted.run "/repo" (Scripted.start Scripted.patch_conflict)
    = (s1, Ret g)
    /\ SquashOperation_init Scripted.run g "main" "HEAD" None s1
       = (s2, Ret op).
Proof.
  destruct (mutation_only_after_construction Scripted.World Scripted.run
              Scripted.no_text Scripted.squash_main
              (Scripted.start Scripted.patch_conflict))
    as (entries & C & _ & _ & H).
  assert (List.length entries = 9%nat) as L.
  { apply (f_equal (@List.length (call * completed))) in C.
    symmetry. exact C. }
  destruct H as [_ H]; [rewrite L; lia|exact H].
Defined.



Lemma one_message_per_run_witness :
  exists lo le,
    out (fst (main Scripted.run Scripted.no_text Scripted.squash_main
                (Scripted.start Scripted.patch_conflict))) = lo
    /\ err (fst (main Scripted.run Scripted.no_text Scripted.squash_main
                   (Scripted.start Scripted.patch_conflict))) = le
    /\ (List.length lo + List.length le <= 1)%nat
    /\ lo = [].
Proof.
  destruct (one_message_per_run Scripted.World Scripted.run Scripted.no_text
              Scripted.squash_main (Scripted.start Scripted.patch_conflict))
    as (lo & le & O & E & L & A & _).
  exists lo, le. split; [exact O|]. split; [exact E|]. split; [exact L|].
  apply A. discriminate.
Defined.



Lemma get_branch_result_witness :
  exists t,
    bytes_to_str (encode ("HEAD" +++ String "010" "")) = Ret t
    /\ ("" = "" <-> t = "HEAD" \/ t = "").
Proof.
  destruct (get_branch_result Scripted.World Scripted.run Scripted.the_env
              "HEAD"
              (after Scripted.run
                 (after Scripted.run
                    (Scripted.checked Scripted.detached_source)
                    (sha_call Scripted.the_env "main"))
                 (sha_call Scripted.the_env "HEAD"))
              (Scripted.built None Scripted.detached_source)
              (Ret "") eq_refl)
    as (_ & H).
  destruct (H "" eq_refl) as (_ & t & _ & D & E & _).
  exists t. split; [exact D|exact E].
Defined.

Lemma log_behaviour_witness :
  err (fst (log (mkLogger true) (inl "done") true (Scripted.start [])))
  = ["done"].
Proof.
  destruct (log_behaviour Scripted.World (mkLogger true) (inl "done") true
              (Scripted.start [])
              (fst (log (mkLogger true) (inl "done") true (Scripted.start [])))
              (Ret tt) eq_refl)
    as (_ & _ & _ & _ & _ & _ & P).
  exact (proj2 (P "done" eq_refl eq_refl)).
Defined.

Lemma bytes_to_str_trims_witness :
  bytes_to_str (encode (" HEAD is now at ccc333" +++ String "010" ""))
  = Ret "HEAD is now at ccc333".
Proof.
  exact (bytes_to_str_trims (encode " ") (encode "HEAD is now at ccc333")
           [x0a] eq_refl eq_refl eq_refl eq_refl).
Defined.

Lemma bytes_to_str_segment_witness :
  exists a b,
    encode (" feature" +++ String "010" "")
    = (a ++ encode "feature" ++ b)%list
    /\ strip (encode "feature") = encode "feature".
Proof.
  destruct (bytes_to_str_segment
              (encode (" feature" +++ String "010" "")) "feature" eq_refl)
    as (a & b & E & _ & _ & S).
  exists a, b. split; [exact E|exact S].
Defined.
